(** * Web accessibility auditor: sitemap resolver, violation aggregator and
    scan loop of [main.py], embedded in Rocq.

    Conventions of the embedding.
    - A Python [str] is a [string]; the characters are those of the Standard
      Library ([ascii]), so slices and comparisons are by character code.
    - A violation record (a Python dict read with [v.get(key, "")]) is a
      record with one string field per key; a missing key reads as [""].
    - A Python [set] of URLs is a [gset string]; a Python [dict] whose
      iteration order matters is an association list in insertion order.
    - Calls to [log] only write to the log pane and are left out, and so are
      the updates of the tables and buttons of the window; the text of the
      status line is kept, since it is how a run reports its outcome. *)

From Stdlib Require Import String Ascii ZArith.
From stdpp Require Import gmap strings list sorting.

(** ** Violation aggregator ([build_aggregated_results]) *)

(** One raw violation, as built by [run_axe_scan]. *)
Record RawViolation := mkRaw {
  url : string;
  priority : string;
  description : string;
  element_html : string;
  element_id : string;
  element_classes : string;
  rule_id : string;
  tag : string;
  inner_text : string;
}.

(** The value stored in [agg] under a key. *)
Record Entry := mkEntry {
  entry_priority : string;
  entry_description : string;
  entry_element_id : string;
  entry_element_classes : string;
  entry_rule_id : string;
  entry_tag : string;
  entry_inner_text : string;
  entry_urls : gset string;
  entry_element_html : string;
}.

(** One row of [self.results]. *)
Record Row := mkRow {
  row_error_id : string;
  row_priority : string;
  row_description : string;
  row_element_id : string;
  row_element_classes : string;
  row_tag : string;
  row_inner_text : string;
  row_urls : list string;
  row_url_count : nat;
  row_element_html : string;
}.

Global Instance RawViolation_eq_dec : EqDecision RawViolation.
Proof. solve_decision. Defined.
Global Instance Row_eq_dec : EqDecision Row.
Proof. solve_decision. Defined.

(** [d.get(k, default)] on a dict with string keys. *)
Fixpoint dict_get {V} (d : list (string * V)) (k : string) (default : V) : V :=
  match d with
  | [] => default
  | (k', x) :: d' => if String.eqb k' k then x else dict_get d' k default
  end.

(** The table of the fold, line 903. *)
Definition severity_rank : list (string * Z) :=
  [("critical", 3%Z); ("serious", 2%Z); ("moderate", 1%Z); ("minor", 0%Z);
   ("", (-1)%Z)].

(** The table written inline in the sort key, line 961. *)
Definition sort_rank : list (string * Z) :=
  [("critical", 3%Z); ("serious", 2%Z); ("moderate", 1%Z); ("minor", 0%Z)].

Definition rank (p : string) : Z := dict_get severity_rank p (-1)%Z.

(** [s[:120]] *)
Definition slice120 (s : string) : string := String.substring 0 120 s.

Definition Key : Type := string * string * string * string * string.

Definition key_of (v : RawViolation) : Key :=
  (rule_id v, tag v, element_id v, element_classes v, slice120 (inner_text v)).

(** The dict literal of lines 917-927. *)
Definition seed (v : RawViolation) : Entry :=
  {| entry_priority := priority v;
     entry_description := description v;
     entry_element_id := element_id v;
     entry_element_classes := element_classes v;
     entry_rule_id := rule_id v;
     entry_tag := tag v;
     entry_inner_text := inner_text v;
     entry_urls := ∅;
     entry_element_html := element_html v |}.

(** [key in agg] *)
Fixpoint agg_mem (k : Key) (agg : list (Key * Entry)) : bool :=
  match agg with
  | [] => false
  | (k', _) :: agg' => if decide (k' = k) then true else agg_mem k agg'
  end.

(** [agg[key]] *)
Fixpoint agg_get (k : Key) (agg : list (Key * Entry)) : option Entry :=
  match agg with
  | [] => None
  | (k', e) :: agg' => if decide (k' = k) then Some e else agg_get k agg'
  end.

(** In-place mutation of the entry stored under [k]. *)
Fixpoint agg_modify (k : Key) (f : Entry → Entry) (agg : list (Key * Entry))
  : list (Key * Entry) :=
  match agg with
  | [] => []
  | (k', e) :: agg' =>
      if decide (k' = k) then (k', f e) :: agg'
      else (k', e) :: agg_modify k f agg'
  end.

Definition add_url (u : string) (e : Entry) : Entry :=
  {| entry_priority := entry_priority e;
     entry_description := entry_description e;
     entry_element_id := entry_element_id e;
     entry_element_classes := entry_element_classes e;
     entry_rule_id := entry_rule_id e;
     entry_tag := entry_tag e;
     entry_inner_text := entry_inner_text e;
     entry_urls := {[u]} ∪ entry_urls e;
     entry_element_html := entry_element_html e |}.

Definition set_priority (p : string) (e : Entry) : Entry :=
  {| entry_priority := p;
     entry_description := entry_description e;
     entry_element_id := entry_element_id e;
     entry_element_classes := entry_element_classes e;
     entry_rule_id := entry_rule_id e;
     entry_tag := entry_tag e;
     entry_inner_text := entry_inner_text e;
     entry_urls := entry_urls e;
     entry_element_html := entry_element_html e |}.

(** Lines 928-935: what one violation does to its entry. *)
Definition merge_into (v : RawViolation) (entry : Entry) : Entry :=
  let entry := add_url (url v) entry in
  let old_p := entry_priority entry in
  let new_p := priority v in
  if (dict_get severity_rank new_p (-1) >? dict_get severity_rank old_p (-1))%Z
  then set_priority new_p entry
  else entry.

(** The body of the loop of line 906. *)
Definition fold_violation (agg : list (Key * Entry)) (v : RawViolation)
  : list (Key * Entry) :=
  let key := key_of v in
  let agg := if agg_mem key agg then agg else agg ++ [(key, seed v)] in
  agg_modify key (merge_into v) agg.

Definition fold_violations (raw : list RawViolation) : list (Key * Entry) :=
  fold_left fold_violation raw [].

(** Lines 941-955. [sorted] of a set of strings is its elements in
    increasing order. *)
Definition row_of_entry (entry : Entry) : Row :=
  let urls_sorted := merge_sort String.le (elements (entry_urls entry)) in
  let url_count := length urls_sorted in
  {| row_error_id := entry_rule_id entry;
     row_priority := entry_priority entry;
     row_description := entry_description entry;
     row_element_id := entry_element_id entry;
     row_element_classes := entry_element_classes entry;
     row_tag := entry_tag entry;
     row_inner_text := entry_inner_text entry;
     row_urls := urls_sorted;
     row_url_count := url_count;
     row_element_html := entry_element_html entry |}.

(** The sort key of line 960. *)
Definition sort_key (r : Row) : Z * string :=
  ((dict_get sort_rank (row_priority r) (-1) * -1)%Z, row_error_id r).

(** [<] on the key tuples: first components, then second ones. *)
Definition sort_key_lt (a b : Z * string) : bool :=
  (a.1 <? b.1)%Z || ((a.1 =? b.1)%Z && String.ltb a.2 b.2).

(** [list.sort(key=...)] is a stable sort that compares keys with [<] only.
    A stable sort has one possible result; insertion from the right gives
    it: an element goes after the elements whose key is strictly smaller and
    before every other one. *)
Fixpoint sort_insert {A K} (lt : K → K → bool) (key : A → K) (x : A)
  (l : list A) : list A :=
  match l with
  | [] => [x]
  | y :: l' =>
      if lt (key y) (key x) then y :: sort_insert lt key x l'
      else x :: y :: l'
  end.

Fixpoint list_sort {A K} (lt : K → K → bool) (key : A → K) (l : list A)
  : list A :=
  match l with
  | [] => []
  | x :: l' => sort_insert lt key x (list_sort lt key l')
  end.

(** [agg.values()] turned into rows, in insertion order (lines 940-956). *)
Definition rows_of (agg : list (Key * Entry)) : list Row :=
  map (λ ke, row_of_entry ke.2) agg.

(** What [build_aggregated_results] stores in [self.results]. *)
Definition aggregate (raw : list RawViolation) : list Row :=
  list_sort sort_key_lt sort_key (rows_of (fold_violations raw)).

(** The fields of [self] that the scan loop and the aggregation read or
    write. [status_label] is the text of the status line. *)
Record App := mkApp {
  raw_results : list RawViolation;
  results : list Row;
  is_scanning : bool;
  cancel_requested : bool;
  progress_value : nat;
  status_label : string;
}.

Definition build_aggregated_results (self : App) : App :=
  {| raw_results := raw_results self;
     results := aggregate (raw_results self);
     is_scanning := is_scanning self;
     cancel_requested := cancel_requested self;
     progress_value := progress_value self;
     status_label := status_label self |}.

(** ** Scan loop ([run_axe_scan], [run_scan_thread], [cancel_scan]) *)

(** What the browser session finds for one offending node: the rule's impact,
    description and id, the node's HTML and what the element helpers read
    from it. *)
Record Finding := mkFinding {
  impact : string;
  finding_description : string;
  snippet : string;
  el_id : string;
  el_cls : string;
  finding_id : string;
  tag_name : string;
  finding_inner_text : string;
}.

(** The [try] block of [run_axe_scan]: it raises an exception with message
    [e], or it gets to its [return] with the findings of the page. *)
Inductive Session :=
  | Raised (e : string)
  | Returned (found : list Finding).

(** The browser automation behind [run_axe_scan]. *)
Class Scanner := { session : string → Session }.

Definition item_of (u : string) (f : Finding) : RawViolation :=
  {| url := u;
     priority := impact f;
     description := finding_description f;
     element_html := snippet f;
     element_id := el_id f;
     element_classes := el_cls f;
     rule_id := finding_id f;
     tag := tag_name f;
     inner_text := finding_inner_text f |}.

(** The record returned by the [except] branch. *)
Definition scan_error (u e : string) : RawViolation :=
  {| url := u;
     priority := "critical";
     description := "SCAN ERROR: " +:+ e;
     element_html := "";
     element_id := "";
     element_classes := "";
     rule_id := "SCAN_ERROR";
     tag := "";
     inner_text := "" |}.

Definition run_axe_scan `{Scanner} (u : string) : list RawViolation :=
  match session u with
  | Returned found => map (item_of u) found
  | Raised e => [scan_error u e]
  end.

Definition set_scanning_state (scanning : bool) (self : App) : App :=
  {| raw_results := raw_results self;
     results := results self;
     is_scanning := scanning;
     cancel_requested := if scanning then false else cancel_requested self;
     progress_value := progress_value self;
     status_label := status_label self |}.

Definition cancel_scan (self : App) : App :=
  if negb (is_scanning self) then self
  else
    {| raw_results := raw_results self;
       results := results self;
       is_scanning := is_scanning self;
       cancel_requested := true;
       progress_value := progress_value self;
       status_label := status_label self |}.

Definition set_status (s : string) (self : App) : App :=
  {| raw_results := raw_results self;
     results := results self;
     is_scanning := is_scanning self;
     cancel_requested := cancel_requested self;
     progress_value := progress_value self;
     status_label := s |}.

(** [for v in violations: self.raw_results.append(v)], then
    [self.progress["value"] = i]. *)
Definition record_scan (violations : list RawViolation) (i : nat) (self : App)
  : App :=
  {| raw_results := raw_results self ++ violations;
     results := results self;
     is_scanning := is_scanning self;
     cancel_requested := cancel_requested self;
     progress_value := i;
     status_label := status_label self |}.

(** The interface thread runs beside the worker. During a scan the only
    handler of it that touches these fields is [cancel_scan];
    [clicks i = true] says that the user's click on Cancel is handled while
    URL number [i] is in flight, that is after the flag was read for URL [i]
    and before it is read again ([i = 0]: before the first read). *)
Definition interface (clicks : nat → bool) (i : nat) (self : App) : App :=
  if clicks i then cancel_scan self else self.

(** The [for] loop of [run_scan_thread]; [i] counts from 1. *)
Fixpoint scan_loop `{Scanner} (clicks : nat → bool) (i : nat)
  (urls : list string) (self : App) : App :=
  match urls with
  | [] => self
  | u :: urls' =>
      if cancel_requested self then self
      else
        let self := set_status ("Scanning " +:+ u) self in
        let violations := run_axe_scan u in
        let self := record_scan violations i self in
        scan_loop clicks (S i) urls' (interface clicks i self)
  end.

Definition run_scan_thread `{Scanner} (clicks : nat → bool)
  (urls : list string) (self : App) : App :=
  let self := scan_loop clicks 1 urls (interface clicks 0 self) in
  let cancelled := cancel_requested self in
  let self :=
    if cancelled then set_status "Scan cancelled." self
    else set_status "Scan complete." self in
  let self := build_aggregated_results self in
  set_scanning_state false self.

(** ** Sitemap resolver ([fetch_sitemap_xml], [extract_urls_from_sitemap]) *)

(** [str.isspace] on one character. *)
Definition isspace (a : ascii) : bool :=
  let n := nat_of_ascii a in
  ((9 <=? n) && (n <=? 13)) || ((28 <=? n) && (n <=? 32))
  || (n =? 133) || (n =? 160).

Fixpoint lstrip (s : string) : string :=
  match s with
  | String a s' => if isspace a then lstrip s' else s
  | EmptyString => EmptyString
  end.

Definition rstrip (s : string) : string := String.rev (lstrip (String.rev s)).

Definition strip (s : string) : string := rstrip (lstrip s).

Definition lower_char (a : ascii) : ascii :=
  let n := nat_of_ascii a in
  if ((65 <=? n) && (n <=? 90))
     || ((192 <=? n) && (n <=? 222) && negb (n =? 215))
  then ascii_of_nat (n + 32) else a.

Fixpoint lower (s : string) : string :=
  match s with
  | String a s' => String (lower_char a) (lower s')
  | EmptyString => EmptyString
  end.

Definition startswith (s pre : string) : bool := String.prefix pre s.

Definition endswith (s suf : string) : bool :=
  String.prefix (String.rev suf) (String.rev s).

(** [sub in s] *)
Definition contains (sub s : string) : bool :=
  match String.index 0 sub s with Some _ => true | None => false end.

(** Lines 261-262: the sniff of the first 200 characters. *)
Definition is_html (xml : string) : bool :=
  let head := lower (String.substring 0 200 (lstrip xml)) in
  startswith head "<!doctype html" || contains "<html" head.

(** An [a] element as the HTML path reads it: its [href] attribute, when it
    has one, and its text. *)
Record Anchor := mkAnchor {
  href : option string;
  text : string;
}.

(** [a.get("href") or a.text or ""] *)
Definition anchor_loc (a : Anchor) : string :=
  match href a with
  | Some h => if decide (h = "") then text a else h
  | None => text a
  end.

(** A data frame as the resolver reads it: whether it is empty
    ([df.empty]), and its [loc] column when it has one, [None] standing for
    a missing value and the other cells already turned into strings
    ([astype(str)]). *)
Record DataFrame := mkDataFrame {
  df_empty : bool;
  loc_column : option (list (option string));
}.

(** The document [BeautifulSoup(xml, "xml")] as the fallback reads it: for
    the first [sitemapindex] element the [sitemap] elements below it, for
    the first [urlset] element the [url] elements below it, each given by the
    text of its first [loc] element ([None] when it has none). *)
Record XmlSoup := mkXmlSoup {
  sitemapindex : option (list (option string));
  urlset : option (list (option string));
}.

(** What lies outside the program: the documents the site serves, and the
    parsing libraries.
    - [served] maps the URLs whose GET request ends with status 200 to the
      text of the response; every other request fails.
    - [html_rows xml] is the table found by
      [soup.find("table", id="sitemap") or soup.find("table")] in the HTML
      document, as the first anchor of each of its rows; [None]: no table.
    - [read_xml xml xpath] is [pd.read_xml(StringIO(xml), xpath=xpath)];
      [None]: it raised.
    - [xml_soup xml] is [BeautifulSoup(xml, "xml")]. *)
Class Site := {
  served : gmap string string;
  html_rows : string → option (list (option Anchor));
  read_xml : string → string → option DataFrame;
  xml_soup : string → XmlSoup;
}.

(** The two variables captured by the closures, and the history of the GET
    requests sent so far (oldest first), which belongs to the network and
    not to the program. *)
Record Crawl := mkCrawl {
  visited : gset string;
  page_urls : list string;
  requests : list string;
}.

Definition add_page_url (u : string) (st : Crawl) : Crawl :=
  if decide (u ≠ "" ∧ u ∉ page_urls st)
  then {| visited := visited st;
          page_urls := page_urls st ++ [u];
          requests := requests st |}
  else st.

(** [visited.add(url)] *)
Definition visit (u : string) (st : Crawl) : Crawl :=
  {| visited := {[u]} ∪ visited st;
     page_urls := page_urls st;
     requests := requests st |}.

Definition fetch_sitemap_xml `{Site} (u : string) (st : Crawl)
  : option string * Crawl :=
  (served !! u,
   {| visited := visited st;
      page_urls := page_urls st;
      requests := requests st ++ [u] |}).

(** A [for] loop whose body may run out of fuel. *)
Definition for_each {A S} (body : A → S → option S)
  : list A → S → option S :=
  fix go l st :=
    match l with
    | [] => Some st
    | x :: l' =>
        match body x st with
        | Some st' => go l' st'
        | None => None
        end
    end.

(** [pd.read_xml] under its [try], with an empty frame set back to [None]. *)
Definition try_read_xml `{Site} (xml xpath : string) : option DataFrame :=
  match read_xml xml xpath with
  | Some df => if df_empty df then None else Some df
  | None => None
  end.

(** [df["loc"].dropna().astype(str)] *)
Definition dropna (col : list (option string)) : list string :=
  omap (λ c, c) col.

(** [_walk]. The recursion of the source is bounded here by [fuel], the
    depth of nested calls still allowed; [None] means that it ran out. *)
Fixpoint _walk `{Site} (fuel : nat) (u : string) (st : Crawl) : option Crawl :=
  match fuel with
  | 0 => None
  | S fuel =>
    if decide (u ∈ visited st) then Some st
    else
      let st := visit u st in
      let '(xml, st) := fetch_sitemap_xml u st in
      match xml with
      | None => Some st
      | Some xml =>
        if decide (xml = "") then Some st
        else if is_html xml then
          match html_rows xml with
          | None => Some st
          | Some rows =>
            for_each (λ row st,
              match row with
              | None => Some st
              | Some a =>
                let loc := strip (anchor_loc a) in
                if decide (loc = "") then Some st
                else if endswith loc ".xml" then _walk fuel loc st
                else Some (add_page_url loc st)
              end) rows st
          end
        else
          let sitemap_df := try_read_xml xml "//sitemap" in
          let url_df := try_read_xml xml "//url" in
          match sitemap_df ≫= loc_column with
          | Some col =>
            for_each (λ loc st,
              let child := strip loc in
              if decide (child = "") then Some st
              else _walk fuel child st) (dropna col) st
          | None =>
            match url_df ≫= loc_column with
            | Some col =>
              Some (fold_left (λ st loc, add_page_url (strip loc) st)
                      (dropna col) st)
            | None =>
              let soup := xml_soup xml in
              match sitemapindex soup with
              | Some childs =>
                for_each (λ sm st,
                  match sm with
                  | Some loc_text =>
                    if decide (loc_text = "") then Some st
                    else
                      let child := strip loc_text in
                      if endswith child ".xml" then _walk fuel child st
                      else Some st
                  | None => Some st
                  end) childs st
              | None =>
                match urlset soup with
                | Some urls =>
                  Some (fold_left (λ st u,
                          match u with
                          | Some loc_text =>
                            if decide (loc_text = "") then st
                            else add_page_url (strip loc_text) st
                          | None => st
                          end) urls st)
                | None => Some st
                end
              end
            end
          end
      end
  end.

(** The state in which [extract_urls_from_sitemap] starts [_walk]. *)
Definition initial : Crawl :=
  {| visited := ∅; page_urls := []; requests := [] |}.

(** The whole run of [extract_urls_from_sitemap], with fuel for one call
    more than the site serves documents. *)
Definition crawl `{Site} (root_url : string) : option Crawl :=
  _walk (S (size served)) root_url initial.

Definition extract_urls_from_sitemap `{Site} (root_url : string)
  : option (list string) :=
  page_urls <$> crawl root_url.

(** ** Notions the statements use *)

(** The elements of [l] in the order of their first occurrence: an element is
    kept unless it was seen earlier. *)
Fixpoint first_seen_from {A} `{EqDecision A} (seen l : list A) : list A :=
  match l with
  | [] => []
  | x :: l' =>
      if decide (x ∈ seen) then first_seen_from seen l'
      else x :: first_seen_from (x :: seen) l'
  end.

Definition first_seen {A} `{EqDecision A} (l : list A) : list A :=
  first_seen_from [] l.

(** The aggregate key of an entry and of a row, read back from their
    fields. *)
Definition entry_key (e : Entry) : Key :=
  (entry_rule_id e, entry_tag e, entry_element_id e, entry_element_classes e,
   slice120 (entry_inner_text e)).

Definition row_key (r : Row) : Key :=
  (row_error_id r, row_tag r, row_element_id r, row_element_classes r,
   slice120 (row_inner_text r)).

(** The raw violations of [raw] that are folded into the key [k], in input
    order. *)
Definition group (k : Key) (raw : list RawViolation) : list RawViolation :=
  filter (λ v, key_of v = k) raw.

(** Severity rank descending, then rule id ascending. *)
Definition row_le (a b : Row) : Prop :=
  (rank (row_priority b) < rank (row_priority a))%Z
  ∨ (rank (row_priority a) = rank (row_priority b)
     ∧ String.le (row_error_id a) (row_error_id b)).

(** The rows before sorting: one per key, in the order in which the keys
    were inserted into [agg]. *)
Definition unsorted_rows (raw : list RawViolation) : list Row :=
  rows_of (fold_violations raw).

(** The place of a row in the sorted table: its rank and its rule id. *)
Definition place (r : Row) : Z * string :=
  (rank (row_priority r), row_error_id r).

(** All the violations of a group merged into an entry, in input order. *)
Definition merge_all (G : list RawViolation) (e : Entry) : Entry :=
  fold_left (λ e w, merge_into w e) G e.

(** A violation is absorbed by [agg] when folding it in changes nothing: its
    key has an entry that already lists its URL and whose priority already
    ranks at least as high. *)
Definition absorbed (v : RawViolation) (agg : list (Key * Entry)) : Prop :=
  ∃ e, agg_get (key_of v) agg = Some e
       ∧ url v ∈ entry_urls e
       ∧ (rank (priority v) ≤ rank (entry_priority e))%Z.

(** ** The resolver seen as a list of actions per document, and the
    depth-first listing of a site *)

(** What [_walk] does with one entry of a document: it recurses into a child
    sitemap, or it hands a page URL to [add_page_url]. *)
Inductive Action :=
  | Follow (child : string)
  | Page (u : string).

(** The entries of a fetched document in document order, by the parsing
    path that [_walk] takes for it. *)
Definition node_actions `{Site} (xml : string) : list Action :=
  if is_html xml then
    match html_rows xml with
    | None => []
    | Some rows =>
      omap (λ row : option Anchor,
        match row with
        | None => None
        | Some a =>
          let loc := strip (anchor_loc a) in
          if decide (loc = "") then None
          else if endswith loc ".xml" then Some (Follow loc)
          else Some (Page loc)
        end) rows
    end
  else
    match try_read_xml xml "//sitemap" ≫= loc_column with
    | Some col =>
      omap (λ loc,
        let child := strip loc in
        if decide (child = "") then None else Some (Follow child))
        (dropna col)
    | None =>
      match try_read_xml xml "//url" ≫= loc_column with
      | Some col => omap (λ loc, Some (Page (strip loc))) (dropna col)
      | None =>
        match sitemapindex (xml_soup xml) with
        | Some childs =>
          omap (λ sm : option string,
            match sm with
            | Some loc_text =>
              if decide (loc_text = "") then None
              else
                let child := strip loc_text in
                if endswith child ".xml" then Some (Follow child) else None
            | None => None
            end) childs
        | None =>
          match urlset (xml_soup xml) with
          | Some urls =>
            omap (λ u : option string,
              match u with
              | Some loc_text =>
                if decide (loc_text = "") then None
                else Some (Page (strip loc_text))
              | None => None
              end) urls
          | None => []
          end
        end
      end
    end.

Definition do_action `{Site} (fuel : nat) (a : Action) (st : Crawl)
  : option Crawl :=
  match a with
  | Follow child => _walk fuel child st
  | Page u => Some (add_page_url u st)
  end.

(** The child sitemaps that the fallback follows: the texts of the [loc]
    elements that are not empty, stripped, as far as they end in [.xml]. *)
Definition fallback_children (childs : list (option string)) : list string :=
  filter (λ child, endswith child ".xml" = true)
    (strip <$> filter (λ loc_text, loc_text ≠ "") (dropna childs)).

(** The page URLs that the fallback hands to [add_page_url]. *)
Definition fallback_pages (urls : list (option string)) : list string :=
  strip <$> filter (λ loc_text, loc_text ≠ "") (dropna urls).

(** [listing seen u out seen'] : starting at [u] with the sitemaps [seen]
    already visited, the traversal meets the page URLs [out], in depth-first
    document order and with repetitions, and ends with [seen'] visited.
    [listing_entries] is the same for the entries of one document. *)
Inductive listing `{Site}
  : gset string → string → list string → gset string → Prop :=
  | listing_seen seen u :
      u ∈ seen → listing seen u [] seen
  | listing_failed seen u :
      u ∉ seen → served !! u = None → listing seen u [] ({[u]} ∪ seen)
  | listing_blank seen u :
      u ∉ seen → served !! u = Some "" → listing seen u [] ({[u]} ∪ seen)
  | listing_document seen u xml out seen' :
      u ∉ seen → served !! u = Some xml → xml ≠ "" →
      listing_entries ({[u]} ∪ seen) (node_actions xml) out seen' →
      listing seen u out seen'
with listing_entries `{Site}
  : gset string → list Action → list string → gset string → Prop :=
  | listing_done seen :
      listing_entries seen [] [] seen
  | listing_page seen p acts out seen' :
      listing_entries seen acts out seen' →
      listing_entries seen (Page p :: acts) (p :: out) seen'
  | listing_follow seen child acts out1 seen1 out2 seen2 :
      listing seen child out1 seen1 →
      listing_entries seen1 acts out2 seen2 →
      listing_entries seen (Follow child :: acts) (out1 ++ out2) seen2.

(** [add_page_url] over a sequence of candidate URLs. *)
Definition collect (pages out : list string) : list string :=
  fold_left (λ acc u, if decide (u ≠ "" ∧ u ∉ acc) then acc ++ [u] else acc)
    out pages.

(** The requests sent between two states of a crawl are pairwise different,
    go to URLs that were not visited before, and are the URLs that became
    visited. *)
Definition grows (st st' : Crawl) : Prop :=
  ∃ new, requests st' = requests st ++ new
         ∧ NoDup new
         ∧ visited st' = visited st ∪ list_to_set new
         ∧ ∀ x, x ∈ new → x ∉ visited st.

(** What a call of [_walk] for [u] that returns [st'] has done, and the same
    for the loop over the entries of a document. *)
Definition walk_post `{Site} (st : Crawl) (u : string) (st' : Crawl) : Prop :=
  grows st st' ∧ u ∈ visited st'
  ∧ ∃ out, listing (visited st) u out (visited st')
           ∧ page_urls st' = collect (page_urls st) out.

Definition entries_post `{Site} (st : Crawl) (acts : list Action)
    (st' : Crawl) : Prop :=
  grows st st'
  ∧ ∃ out, listing_entries (visited st) acts out (visited st')
           ∧ page_urls st' = collect (page_urls st) out.

(** ** Sample inputs *)

(** Two violations of one rule with one priority on two different elements:
    two keys that tie in the sort. *)
Definition on_div : RawViolation :=
  mkRaw "https://a/" "minor" "d" "<div>" "" "" "region" "div" "".
Definition on_span : RawViolation :=
  mkRaw "https://a/" "minor" "d" "<span>" "" "" "region" "span" "".

(** A scanner for the examples: the page [https://site/3] makes the browser
    session raise, every other page has one finding. *)
Definition sample_finding : Finding :=
  mkFinding "serious" "Images must have alternate text" "<img>" "" ""
    "image-alt" "img" "".

Definition sample_scanner : Scanner :=
  {| session u :=
       if decide (u = "https://site/3") then Raised "Timeout 30000ms exceeded"
       else Returned [sample_finding] |}.

Definition sample_queue : list string :=
  ["https://site/1"; "https://site/2"; "https://site/3"; "https://site/4";
   "https://site/5"].

(** The state in which [start_scan] hands over to the worker. *)
Definition sample_start : App :=
  set_scanning_state true (mkApp [] [] false false 0 "Starting scan...").

(** A site given by tables: the documents it serves, the frames that
    [read_xml] returns for a document and an xpath (it raises for every other
    pair), and the soups of the documents. No document has an HTML table. *)
Definition table_site (docs : list (string * string))
    (frames : list (string * string * DataFrame))
    (soups : list (string * XmlSoup)) : Site :=
  {| served := list_to_map docs;
     html_rows := λ _, None;
     read_xml := λ xml xpath,
       (list_to_map frames : gmap (string * string) DataFrame) !! (xml, xpath);
     xml_soup := λ xml,
       default (mkXmlSoup None None)
         ((list_to_map soups : gmap string XmlSoup) !! xml) |}.

Definition frame (locs : list string) : DataFrame :=
  mkDataFrame false (Some (Some <$> locs)).

(** An index that lists two URL sets of two pages each. *)
Definition two_urlsets : Site :=
  table_site
    [("https://site/sitemap_index.xml", "<sitemapindex>post page</sitemapindex>");
     ("https://site/post-sitemap.xml", "<urlset>hello news</urlset>");
     ("https://site/page-sitemap.xml", "<urlset>about contact</urlset>")]
    [("<sitemapindex>post page</sitemapindex>", "//sitemap",
      frame ["https://site/post-sitemap.xml"; "https://site/page-sitemap.xml"]);
     ("<urlset>hello news</urlset>", "//url",
      frame ["https://site/hello/"; "https://site/news/"]);
     ("<urlset>about contact</urlset>", "//url",
      frame ["https://site/about/"; "https://site/contact/"])]
    [].

(** Two indexes that list each other. *)
Definition cycle : Site :=
  table_site
    [("https://site/a.xml", "<sitemapindex>b</sitemapindex>");
     ("https://site/b.xml", "<sitemapindex>a</sitemapindex>")]
    [("<sitemapindex>b</sitemapindex>", "//sitemap",
      frame ["https://site/b.xml"]);
     ("<sitemapindex>a</sitemapindex>", "//sitemap",
      frame ["https://site/a.xml"])]
    [].

(** An index for which [read_xml] raises, so that the element-tree fallback
    reads it; one of its two children has no [.xml] suffix. *)
Definition fallback_index : Site :=
  table_site
    [("https://site/sitemap.xml", "<sitemapindex>pages post</sitemapindex>");
     ("https://site/sitemap-pages", "<urlset>about</urlset>");
     ("https://site/post-sitemap.xml", "<urlset>hello</urlset>")]
    []
    [("<sitemapindex>pages post</sitemapindex>",
      mkXmlSoup
        (Some [Some "https://site/sitemap-pages";
               Some "https://site/post-sitemap.xml"])
        None);
     ("<urlset>about</urlset>",
      mkXmlSoup None (Some [Some "https://site/about/"]));
     ("<urlset>hello</urlset>",
      mkXmlSoup None (Some [Some "https://site/hello/"]))].

(** ** Lines of text *)

(** The newline character. *)
Definition newline : ascii := "010"%char.

(** [s.split("\n")] *)
Fixpoint split_newline (s : string) : list string :=
  match s with
  | EmptyString => [EmptyString]
  | String c s' =>
      if Ascii.eqb c newline then EmptyString :: split_newline s'
      else
        match split_newline s' with
        | line :: lines => String c line :: lines
        | [] => [String c EmptyString]
        end
  end.

(** ["\n".join(lines)] *)
Definition join_newline (lines : list string) : string :=
  String.concat (String newline EmptyString) lines.

Fixpoint no_newline (s : string) : bool :=
  match s with
  | String c s' => negb (Ascii.eqb c newline) && no_newline s'
  | EmptyString => true
  end.

Fixpoint all_space (s : string) : bool :=
  match s with
  | String c s' => isspace c && all_space s'
  | EmptyString => true
  end.

(** [s] is empty or starts with a character that is no white space. *)
Definition left_clean (s : string) : Prop :=
  match s with
  | String c _ => isspace c = false
  | EmptyString => True
  end.

(** ** URL detection for CSV input ([URL_REGEX], [extract_urls_from_df]) *)

(** A character that [[^\s,]] matches. *)
Definition url_char (c : ascii) : bool :=
  negb (isspace c || Ascii.eqb c ",").

(** [[^\s,]*] at the start of [s], greedy: the longest run of such
    characters, and what follows it. *)
Fixpoint span_url (s : string) : string * string :=
  match s with
  | String c s' =>
      if url_char c
      then let '(run, rest) := span_url s' in (String c run, rest)
      else (EmptyString, s)
  | EmptyString => (EmptyString, EmptyString)
  end.

(** [s] without its prefix [pre], when it has this prefix. *)
Fixpoint strip_prefix (pre s : string) : option string :=
  match pre, s with
  | EmptyString, _ => Some s
  | String a pre', String b s' =>
      if Ascii.eqb a b then strip_prefix pre' s' else None
  | String _ _, EmptyString => None
  end.

(** [://[^\s,]+] at the start of [r], after the text [scheme] has been
    matched: the whole match. *)
Definition match_tail (scheme r : string) : option string :=
  match strip_prefix "://" r with
  | Some r' =>
      let run := (span_url r').1 in
      if decide (run = "") then None else Some (scheme +:+ "://" +:+ run)
  | None => None
  end.

(** [URL_REGEX.match] at the start of [s]: [http], then [s?] (first with the
    [s], then without it), then the tail. *)
Definition match_url (s : string) : option string :=
  match strip_prefix "http" s with
  | Some r =>
      match
        match r with
        | String "s" r1 => match_tail "https" r1
        | _ => None
        end
      with
      | Some m => Some m
      | None => match_tail "http" r
      end
  | None => None
  end.

(** [URL_REGEX.findall]: the matches from left to right, the search going
    on where the last match ended; [skip] counts the characters of [s] that
    still belong to the last match. *)
Fixpoint findall_from (skip : nat) (s : string) : list string :=
  match s with
  | EmptyString => []
  | String _ s' =>
      match skip with
      | S k => findall_from k s'
      | 0 =>
          match match_url s with
          | Some m => m :: findall_from (String.length m - 1) s'
          | None => findall_from 0 s'
          end
      end
  end.

Definition findall_url (s : string) : list string := findall_from 0 s.

(** [extract_urls_from_df]. The frame is the list of its columns, a cell
    being [None] when it is missing; [None] as result stands for the
    [IndexError] of [df.columns[0]] on a frame without columns.
    [list(dict.fromkeys(cleaned))] keeps the first occurrences. *)
Definition extract_urls_from_df (df : list (list (option string)))
  : option (list string) :=
  match df with
  | [] => None
  | first_col :: _ =>
      let urls := dropna first_col in
      let cleaned := concat (map findall_url urls) in
      Some (first_seen cleaned)
  end.

Fixpoint all_url_chars (s : string) : bool :=
  match s with
  | String c s' => url_char c && all_url_chars s'
  | EmptyString => true
  end.

(** A text that the pattern matches as a whole: a scheme, then at least one
    character, none of them white space or a comma. *)
Definition is_url (m : string) : Prop :=
  ∃ run, (m = "http://" +:+ run ∨ m = "https://" +:+ run)
         ∧ run ≠ "" ∧ all_url_chars run = true.

(** [rest] does not go on with a character of a URL. *)
Definition ends_url (rest : string) : Prop :=
  match rest with
  | String d _ => url_char d = false
  | EmptyString => True
  end.

(** ** Saved scans ([save_scan]) *)

(** The document that [save_scan] writes. *)
Record ScanFile := mkScanFile {
  scan_date : string;
  metadata_urls : list string;
  saved_results : list Row;
  saved_raw_results : list RawViolation;
}.

(** The set [all_urls] of [save_scan], lines 1160-1165. *)
Definition all_urls (self : App) : gset string :=
  let all_urls :=
    fold_left (λ acc r, acc ∪ list_to_set (row_urls r)) (results self) ∅ in
  fold_left (λ acc v, if decide (url v = "") then acc else {[url v]} ∪ acc)
    (raw_results self) all_urls.

(** [save_scan]: the document written, or [None] when nothing is written.
    [now] is the date as [strftime] prints it and [file] the answer of the
    file dialog, empty when the user closes it. *)
Definition save_scan (now file : string) (self : App) : option ScanFile :=
  if decide (results self = [] ∧ raw_results self = []) then None
  else
    let data :=
      {| scan_date := now;
         metadata_urls := merge_sort String.le (elements (all_urls self));
         saved_results := results self;
         saved_raw_results := raw_results self |} in
    if decide (file = "") then None else Some data.

(** ** The window: input modes and the start of a scan
    ([update_input_mode], [load_csv_file], [load_sitemap], [start_scan]) *)

(** A [tk.Text] widget: its text, without the newline that the widget keeps
    at its end, and whether its state is [normal]; a widget whose state is
    [disabled] ignores [insert] and [delete]. *)
Record Text := mkText {
  text_content : string;
  text_normal : bool;
}.

(** [widget.get("1.0", "end")] *)
Definition text_get (t : Text) : string :=
  text_content t +:+ String newline "".

(** [widget.delete("1.0", "end")] *)
Definition text_delete (t : Text) : Text :=
  if text_normal t
  then {| text_content := ""; text_normal := text_normal t |}
  else t.

(** [widget.insert("1.0", s)] *)
Definition text_insert (s : string) (t : Text) : Text :=
  if text_normal t
  then {| text_content := s +:+ text_content t; text_normal := text_normal t |}
  else t.

(** [widget.config(state=...)] *)
Definition text_config (normal : bool) (t : Text) : Text :=
  {| text_content := text_content t; text_normal := normal |}.

(** The fields of [self] that the input handlers read or write, around the
    fields of the scan. *)
Record Window := mkWindow {
  window_app : App;
  mode_var : string;
  sitemap_entry : string;
  url_text : Text;
  loaded_csv_urls : list string;
}.

(** How a handler ends: it returns without a word, it shows a message box
    and returns, or it starts the worker thread on a list of URLs. *)
Inductive Outcome :=
  | Nothing
  | Dialog (title message : string)
  | Thread (urls : list string).

Definition set_app (a : App) (w : Window) : Window :=
  {| window_app := a;
     mode_var := mode_var w;
     sitemap_entry := sitemap_entry w;
     url_text := url_text w;
     loaded_csv_urls := loaded_csv_urls w |}.

Definition set_url_text (t : Text) (w : Window) : Window :=
  {| window_app := window_app w;
     mode_var := mode_var w;
     sitemap_entry := sitemap_entry w;
     url_text := t;
     loaded_csv_urls := loaded_csv_urls w |}.

Definition set_loaded_csv_urls (urls : list string) (w : Window) : Window :=
  {| window_app := window_app w;
     mode_var := mode_var w;
     sitemap_entry := sitemap_entry w;
     url_text := url_text w;
     loaded_csv_urls := urls |}.

(** [update_input_mode], as far as the text area goes. *)
Definition update_input_mode (w : Window) : Window :=
  let mode := mode_var w in
  if decide (mode = "Manual") then set_url_text (text_config true (url_text w)) w
  else if decide (mode = "Sitemap")
  then set_url_text (text_config false (url_text w)) w
  else if decide (mode = "CSV File")
  then set_url_text (text_config false (url_text w)) w
  else w.

(** Lines 794-799 and 825-830: the text area is filled with the URLs, also
    when it is read-only for the user in the current mode. *)
Definition show_urls (urls : list string) (own_mode : string) (w : Window)
  : Window :=
  let t := text_config true (url_text w) in
  let t := text_delete t in
  let t := text_insert (join_newline urls) t in
  let t := if decide (mode_var w = own_mode) then text_config false t else t in
  set_url_text t w.

(** What the file dialog and [pd.read_csv] give to [load_csv_file]: no file
    chosen, an exception with message [e], or a frame. *)
Inductive CsvFile :=
  | NoFile
  | Unreadable (e : string)
  | Frame (df : list (list (option string))).

(** [load_csv_file]; [None] stands for the exception of
    [extract_urls_from_df] that it does not catch. *)
Definition load_csv_file (file : CsvFile) (w : Window)
  : option (Window * Outcome) :=
  match file with
  | NoFile => Some (w, Nothing)
  | Unreadable e =>
      Some (w, Dialog "Error" ("Could not read CSV:" +:+ String newline e))
  | Frame df =>
      match extract_urls_from_df df with
      | None => None
      | Some urls =>
          if decide (urls = [])
          then Some (w, Dialog "Error" "No URLs detected in CSV.")
          else
            let w := set_loaded_csv_urls urls w in
            Some (show_urls urls "CSV File" w, Nothing)
      end
  end.

(** [load_sitemap]; [None] only when [_walk] runs out of fuel. *)
Definition load_sitemap `{Site} (w : Window) : option (Window * Outcome) :=
  let root_sitemap := strip (sitemap_entry w) in
  if decide (root_sitemap = "")
  then Some (w, Dialog "Error" "Enter a sitemap URL first.")
  else
    match extract_urls_from_sitemap root_sitemap with
    | None => None
    | Some urls =>
        if decide (urls = [])
        then Some (w, Dialog "No URLs"
                        ("No page URLs found from sitemap " +:+ root_sitemap))
        else Some (show_urls urls "Sitemap" w, Nothing)
    end.

(** The URLs typed or shown in the text area, lines 851-855 and 859-863. *)
Definition read_urls (t : Text) : list string :=
  omap (λ u, let u' := strip u in if decide (u' = "") then None else Some u')
    (split_newline (text_get t)).

(** [self.raw_results.clear()] and [self.results.clear()] *)
Definition clear_results (self : App) : App :=
  {| raw_results := [];
     results := [];
     is_scanning := is_scanning self;
     cancel_requested := cancel_requested self;
     progress_value := progress_value self;
     status_label := status_label self |}.

(** Lines 885-894: the end of [start_scan] once it has its URLs. *)
Definition launch (urls : list string) (w : Window) : Window * Outcome :=
  if decide (urls = []) then (w, Dialog "Error" "No URLs found.")
  else
    let self := window_app w in
    let self :=
      {| raw_results := raw_results self;
         results := results self;
         is_scanning := is_scanning self;
         cancel_requested := cancel_requested self;
         progress_value := 0;
         status_label := "Starting scan..." |} in
    let self := set_scanning_state true self in
    (set_app self w, Thread urls).

(** [start_scan]. [ensure_playwright_browsers_installed] works on the file
    system only and is left out. *)
Definition start_scan (w : Window) : Window * Outcome :=
  if is_scanning (window_app w) then (w, Nothing)
  else
    let w := set_app (clear_results (window_app w)) w in
    let mode := mode_var w in
    if decide (mode = "Manual") then launch (read_urls (url_text w)) w
    else if decide (mode = "Sitemap") then
      let urls := read_urls (url_text w) in
      if decide (urls = [])
      then (w, Dialog "Error"
                 "No URLs loaded from sitemap. Click 'Load Sitemap' first.")
      else launch urls w
    else if decide (mode = "CSV File") then launch (loaded_csv_urls w) w
    else launch [] w.

(** An idle window in manual mode, with nothing typed. *)
Definition blank : Window :=
  mkWindow (mkApp [] [] false false 0 "") "Manual" "" (mkText "" true) [].

(** ** Notions of the further statements on the resolver *)

(** Every page URL collected so far is stripped and not empty. *)
Definition pages_clean (st : Crawl) : Prop :=
  ∀ u, u ∈ page_urls st → u ≠ "" ∧ strip u = u.

(** Two states of a crawl that have collected the same page URLs and differ
    at most in which URLs that the site does not serve they have visited. *)
Definition same_but_unserved `{Site} (st1 st2 : Crawl) : Prop :=
  page_urls st1 = page_urls st2
  ∧ ∀ x, x ∈ dom served → (x ∈ visited st1 ↔ x ∈ visited st2).

(** ** Proof steps *)

(** Case distinction on a comparison of ranks. *)
Ltac case_gtb :=
  match goal with
  | |- context [(?a >? ?b)%Z] => destruct (Z.gtb_spec a b)
  end.

(** Reads a field through the updates that end [run_scan_thread]. *)
Ltac read_fields :=
  unfold set_scanning_state, build_aggregated_results, set_status;
  cbn [raw_results results is_scanning cancel_requested progress_value
       status_label].

(** ** Lists: first occurrences *)

Section first_seen.
Context {A : Type} `{EqDecision A}.
Implicit Types l seen : list A.

Lemma first_seen_from_ext seen1 seen2 l :
  (∀ x, x ∈ seen1 ↔ x ∈ seen2) →
  first_seen_from seen1 l = first_seen_from seen2 l.
Proof.
  revert seen1 seen2. induction l as [|x l IH]; intros s1 s2 Hs; [done|].
  simpl. destruct (decide (x ∈ s1)) as [H1|H1], (decide (x ∈ s2)) as [H2|H2].
  - by apply IH.
  - by apply Hs in H1.
  - by apply Hs in H2.
  - f_equal. apply IH. intros y. rewrite !elem_of_cons. by rewrite Hs.
Qed.

Lemma elem_of_first_seen_from seen l x :
  x ∈ first_seen_from seen l ↔ x ∈ l ∧ x ∉ seen.
Proof.
  revert seen. induction l as [|y l IH]; intros seen; simpl.
  - rewrite !elem_of_nil. tauto.
  - destruct (decide (y ∈ seen)) as [Hy|Hy].
    + rewrite IH, elem_of_cons. split; [tauto|].
      intros [[->|?] ?]; tauto.
    + rewrite !elem_of_cons, IH, elem_of_cons. split.
      * intros [->|[? ?]]; tauto.
      * intros [[->|?] ?]; [tauto|].
        destruct (decide (x = y)); tauto.
Qed.

Lemma NoDup_first_seen_from seen l : NoDup (first_seen_from seen l).
Proof.
  revert seen. induction l as [|y l IH]; intros seen; simpl.
  - constructor.
  - destruct (decide (y ∈ seen)); [apply IH|].
    constructor; [|apply IH].
    rewrite elem_of_first_seen_from, elem_of_cons. tauto.
Qed.

(** Appending the unseen elements one by one, as [add_page_url] and the
    insertion into a dict do, lists the first occurrences. *)
Lemma fold_left_append_unseen l acc :
  fold_left (λ acc x, if decide (x ∈ acc) then acc else acc ++ [x]) l acc
  = acc ++ first_seen_from acc l.
Proof.
  revert acc. induction l as [|x l IH]; intros acc; simpl.
  - by rewrite app_nil_r.
  - destruct (decide (x ∈ acc)) as [Hx|Hx]; [apply IH|].
    rewrite IH, <- app_assoc. simpl. do 2 f_equal.
    apply first_seen_from_ext. intros y.
    rewrite elem_of_app, elem_of_cons, elem_of_cons, elem_of_nil. tauto.
Qed.
End first_seen.

(** ** The stable sort *)

Section list_sort.
Context {A K : Type} `{EqDecision K} (lt : K → K → bool) (key : A → K).
Implicit Types l : list A.

Lemma sort_insert_Permutation x l : sort_insert lt key x l ≡ₚ x :: l.
Proof.
  induction l as [|y l IH]; simpl; [done|].
  destruct (lt (key y) (key x)); [|done].
  by rewrite IH, Permutation_swap.
Qed.

Lemma list_sort_Permutation l : list_sort lt key l ≡ₚ l.
Proof.
  induction l as [|x l IH]; simpl; [done|].
  by rewrite sort_insert_Permutation, IH.
Qed.

Hypothesis lt_irrefl : ∀ k, lt k k = false.

Lemma filter_sort_insert k x l :
  filter (λ y, key y = k) (sort_insert lt key x l)
  = filter (λ y, key y = k) (x :: l).
Proof.
  induction l as [|y l IH]; simpl; [done|].
  destruct (lt (key y) (key x)) eqn:Hlt; [|done].
  rewrite (filter_cons _ y), IH, !filter_cons.
  destruct (decide (key y = k)) as [Hy|Hy]; [|done].
  destruct (decide (key x = k)) as [Hx|Hx]; [|done].
  rewrite Hy, Hx, lt_irrefl in Hlt. done.
Qed.

(** Rows with the same sort key leave the sort in the order in which they
    entered it. *)
Lemma list_sort_stable k l :
  filter (λ y, key y = k) (list_sort lt key l) = filter (λ y, key y = k) l.
Proof.
  induction l as [|x l IH]; simpl; [done|].
  by rewrite filter_sort_insert, !filter_cons, IH.
Qed.

Hypothesis lt_asym : ∀ a b, lt a b = true → lt b a = false.
Hypothesis le_trans :
  ∀ a b c, lt b a = false → lt c b = false → lt c a = false.

Lemma StronglySorted_sort_insert x l :
  StronglySorted (λ a b, lt (key b) (key a) = false) l →
  StronglySorted (λ a b, lt (key b) (key a) = false)
    (sort_insert lt key x l).
Proof.
  induction 1 as [|y l Hl IH Hy]; simpl.
  - repeat constructor.
  - destruct (lt (key y) (key x)) eqn:Hlt.
    + constructor; [done|].
      rewrite sort_insert_Permutation. constructor; [|done].
      by apply lt_asym.
    + constructor; [by constructor|].
      constructor; [done|].
      eapply Forall_impl; [exact Hy|]. intros z Hz. simpl in Hz.
      by eapply le_trans.
Qed.

Lemma StronglySorted_list_sort l :
  StronglySorted (λ a b, lt (key b) (key a) = false) (list_sort lt key l).
Proof.
  induction l as [|x l IH]; simpl; [constructor|].
  by apply StronglySorted_sort_insert.
Qed.
End list_sort.

(** ** Severity ranks and the order of the sort keys *)

Lemma rank_table :
  rank "critical" = 3%Z ∧ rank "serious" = 2%Z ∧ rank "moderate" = 1%Z
  ∧ rank "minor" = 0%Z ∧ rank "" = (-1)%Z.
Proof. by repeat split. Qed.

Lemma rank_unknown p :
  p ∉ ["critical"; "serious"; "moderate"; "minor"] → rank p = (-1)%Z.
Proof.
  intros Hp. unfold rank, severity_rank. cbn [dict_get].
  repeat match goal with
  | |- context [String.eqb ?s p] =>
      destruct (String.eqb_spec s p) as [<-|_];
        [exfalso; apply Hp; set_solver|]
  end.
  by destruct (String.eqb "" p).
Qed.

(** The two rank tables of the source agree. *)
Lemma sort_rank_rank p : dict_get sort_rank p (-1)%Z = rank p.
Proof.
  unfold rank, severity_rank, sort_rank. cbn [dict_get].
  repeat match goal with
  | |- context [String.eqb ?s p] => destruct (String.eqb s p); [done|]
  end.
  done.
Qed.

Lemma ltb_negb_leb (a b : string) : String.ltb b a = negb (String.leb a b).
Proof.
  unfold String.ltb, String.leb. rewrite (String.compare_antisym a b).
  by destruct (String.compare b a).
Qed.

Lemma sort_key_lt_false (a b : Z * string) :
  sort_key_lt b a = false
  ↔ (a.1 < b.1)%Z ∨ (a.1 = b.1 ∧ String.le a.2 b.2).
Proof.
  unfold sort_key_lt, String.le. rewrite ltb_negb_leb.
  destruct (Z.ltb_spec b.1 a.1), (Z.eqb_spec b.1 a.1),
    (String.leb a.2 b.2); simpl; split; intros; try done;
    try lia; try (right; split; [lia|done]).
  all: destruct_or?; destruct_and?; try lia; done.
Qed.

Lemma sort_key_lt_irrefl (k : Z * string) : sort_key_lt k k = false.
Proof. apply sort_key_lt_false. right. split; [done|]. reflexivity. Qed.

Lemma sort_key_lt_asym (a b : Z * string) :
  sort_key_lt a b = true → sort_key_lt b a = false.
Proof.
  intros Hab. apply sort_key_lt_false.
  destruct (sort_key_lt a b) eqn:Hlt; [|done].
  apply not_false_iff_true in Hlt. rewrite sort_key_lt_false in Hlt.
  destruct (Z.lt_trichotomy a.1 b.1) as [?|[?|?]]; [by left| |].
  - right. split; [done|].
    destruct (total String.le a.2 b.2); [done|]. exfalso. apply Hlt. by right.
  - exfalso. apply Hlt. by left.
Qed.

Lemma sort_key_le_trans (a b c : Z * string) :
  sort_key_lt b a = false → sort_key_lt c b = false →
  sort_key_lt c a = false.
Proof.
  rewrite !sort_key_lt_false.
  intros [?|[? ?]] [?|[? ?]]; try (left; lia).
  right. split; [lia|]. by etrans.
Qed.

Lemma sort_key_le_row_le (a b : Row) :
  sort_key_lt (sort_key b) (sort_key a) = false ↔ row_le a b.
Proof.
  rewrite sort_key_lt_false. unfold sort_key, row_le. cbn [fst snd].
  rewrite !sort_rank_rank.
  split; intros [?|[? ?]]; (left; lia) || (right; split; [lia|done]).
Qed.

(** ** The dict [agg] *)

Section agg.
Implicit Types agg : list (Key * Entry).
Implicit Types k : Key.

Lemma agg_mem_get k agg : agg_mem k agg = bool_decide (is_Some (agg_get k agg)).
Proof.
  induction agg as [|[k' e] agg IH]; simpl; [done|].
  destruct (decide (k' = k)); [|done].
  symmetry. apply bool_decide_eq_true. eauto.
Qed.

Lemma agg_mem_keys k agg : agg_mem k agg = bool_decide (k ∈ agg.*1).
Proof.
  induction agg as [|[k' e] agg IH]; csimpl; [done|].
  destruct (decide (k' = k)) as [->|Hne].
  - symmetry. apply bool_decide_eq_true. apply elem_of_cons. by left.
  - rewrite IH. apply bool_decide_ext. rewrite elem_of_cons.
    split; [by right|]. by intros [?|?].
Qed.

Lemma agg_get_app k k' e agg :
  agg_get k' (agg ++ [(k, e)])
  = match agg_get k' agg with
    | Some e' => Some e'
    | None => if decide (k = k') then Some e else None
    end.
Proof.
  induction agg as [|[k0 e0] agg IH]; simpl; [done|].
  by destruct (decide (k0 = k')).
Qed.

Lemma agg_get_modify k k' f agg :
  agg_get k' (agg_modify k f agg)
  = if decide (k = k') then f <$> agg_get k' agg else agg_get k' agg.
Proof.
  induction agg as [|[k0 e0] agg IH]; simpl; [by destruct (decide _)|].
  destruct (decide (k0 = k)) as [->|Hne]; simpl.
  - destruct (decide (k = k')); [done|]. done.
  - destruct (decide (k0 = k')) as [->|?].
    + by rewrite decide_False by done.
    + apply IH.
Qed.

Lemma agg_modify_keys k f agg : (agg_modify k f agg).*1 = agg.*1.
Proof.
  induction agg as [|[k0 e0] agg IH]; csimpl; [done|].
  destruct (decide (k0 = k)); csimpl; [done|]. by rewrite IH.
Qed.

Lemma agg_modify_id k f e agg :
  agg_get k agg = Some e → f e = e → agg_modify k f agg = agg.
Proof.
  intros Hget Hf. induction agg as [|[k0 e0] agg IH]; simpl in *; [done|].
  destruct (decide (k0 = k)); [congruence|]. by rewrite IH.
Qed.

Lemma agg_get_elem_of k e agg :
  NoDup agg.*1 → (k, e) ∈ agg → agg_get k agg = Some e.
Proof.
  induction agg as [|[k0 e0] agg IH]; csimpl; [by intros _ ?%elem_of_nil|].
  intros [Hk0 Hnd]%NoDup_cons [[= -> ->]|Hin]%elem_of_cons.
  - by rewrite decide_True.
  - destruct (decide (k0 = k)) as [->|?]; [|by apply IH].
    destruct Hk0. apply (list_elem_of_fmap_2 fst) in Hin. done.
Qed.

Lemma agg_get_fold_violation k agg w :
  agg_get k (fold_violation agg w)
  = if decide (key_of w = k)
    then Some (merge_into w (default (seed w) (agg_get k agg)))
    else agg_get k agg.
Proof.
  unfold fold_violation. rewrite agg_get_modify, agg_mem_get.
  destruct (decide (key_of w = k)) as [<-|Hne].
  - destruct (agg_get (key_of w) agg) as [e|] eqn:Hget.
    + rewrite bool_decide_eq_true_2 by eauto. by rewrite Hget.
    + rewrite bool_decide_eq_false_2 by (by intros [? ?]).
      rewrite agg_get_app, Hget. by rewrite decide_True.
  - destruct (bool_decide _); [done|].
    rewrite agg_get_app. destruct (agg_get k agg); [done|].
    by rewrite decide_False.
Qed.

Lemma fold_violation_keys agg w :
  (fold_violation agg w).*1
  = if decide (key_of w ∈ agg.*1) then agg.*1 else agg.*1 ++ [key_of w].
Proof.
  unfold fold_violation. rewrite agg_modify_keys, agg_mem_keys.
  destruct (decide (key_of w ∈ agg.*1)).
  - by rewrite bool_decide_eq_true_2.
  - rewrite bool_decide_eq_false_2 by done. by rewrite fmap_app.
Qed.

Lemma fold_left_fold_violation_keys raw agg :
  (fold_left fold_violation raw agg).*1
  = agg.*1 ++ first_seen_from agg.*1 (map key_of raw).
Proof.
  rewrite <- fold_left_append_unseen. revert agg.
  induction raw as [|w raw IH]; intros agg; simpl; [done|].
  by rewrite IH, fold_violation_keys.
Qed.

(** The keys of [agg] are the aggregate keys of the input, in the order of
    their first occurrence. *)
Lemma fold_violations_keys raw :
  (fold_violations raw).*1 = first_seen (map key_of raw).
Proof. apply fold_left_fold_violation_keys. Qed.

Lemma NoDup_fold_violations_keys raw : NoDup (fold_violations raw).*1.
Proof. rewrite fold_violations_keys. apply NoDup_first_seen_from. Qed.
End agg.

(** ** What an entry accumulates *)

Lemma merge_into_priority v e :
  entry_priority (merge_into v e)
  = if (rank (priority v) >? rank (entry_priority e))%Z
    then priority v else entry_priority e.
Proof. unfold merge_into, rank. simpl. by destruct (_ >? _)%Z. Qed.

Lemma merge_into_urls v e :
  entry_urls (merge_into v e) = {[url v]} ∪ entry_urls e.
Proof. unfold merge_into. by destruct (_ >? _)%Z. Qed.

Lemma merge_into_key v e : entry_key (merge_into v e) = entry_key e.
Proof. unfold merge_into. by destruct (_ >? _)%Z. Qed.

Lemma merge_into_first_seen v e :
  entry_description (merge_into v e) = entry_description e
  ∧ entry_element_html (merge_into v e) = entry_element_html e.
Proof. unfold merge_into. by destruct (_ >? _)%Z. Qed.

Lemma merge_into_id v e :
  url v ∈ entry_urls e →
  (rank (priority v) ≤ rank (entry_priority e))%Z →
  merge_into v e = e.
Proof.
  intros Hu Hr. unfold merge_into. fold (rank (priority v)).
  change (entry_priority (add_url (url v) e)) with (entry_priority e).
  fold (rank (entry_priority e)).
  destruct (Z.gtb_spec (rank (priority v)) (rank (entry_priority e)));
    [lia|].
  destruct e as [? ? ? ? ? ? ? urls ?]. unfold add_url. simpl in *.
  f_equal. set_solver.
Qed.

Lemma merge_all_snoc G w e :
  merge_all (G ++ [w]) e = merge_into w (merge_all G e).
Proof. unfold merge_all. by rewrite fold_left_app. Qed.

Lemma merge_all_key G e : entry_key (merge_all G e) = entry_key e.
Proof.
  induction G as [|w G IH] using rev_ind; [done|].
  by rewrite merge_all_snoc, merge_into_key.
Qed.

Lemma merge_all_urls G e :
  entry_urls (merge_all G e) = entry_urls e ∪ list_to_set (map url G).
Proof.
  induction G as [|w G IH] using rev_ind.
  - simpl. set_solver.
  - rewrite merge_all_snoc, merge_into_urls, IH, map_app, list_to_set_app_L.
    simpl. set_solver.
Qed.

(** The priority an entry ends with is the running maximum: no violation of
    the group ranks above it, and it is either the priority the entry started
    with or that of the first violation that reached this rank. *)
Lemma merge_all_priority G e :
  let p := entry_priority (merge_all G e) in
  (rank (entry_priority e) ≤ rank p)%Z
  ∧ Forall (λ w, (rank (priority w) ≤ rank p)%Z) G
  ∧ (p = entry_priority e
     ∨ ∃ G1 v G2, G = G1 ++ v :: G2 ∧ p = priority v
         ∧ Forall (λ w, (rank (priority w) < rank p)%Z) G1).
Proof.
  induction G as [|w G IH] using rev_ind.
  - simpl. split; [lia|]. split; [constructor|by left].
  - rewrite merge_all_snoc. cbv zeta in *. rewrite merge_into_priority.
    destruct IH as (Hle & Hall & Hwho).
    destruct (Z.gtb_spec (rank (priority w))
                (rank (entry_priority (merge_all G e)))) as [Hgt|Hngt].
    + split; [lia|]. split.
      * apply Forall_app. split; [|by repeat constructor].
        eapply Forall_impl; [exact Hall|]. simpl. intros; lia.
      * right. exists G, w, []. split; [done|]. split; [done|].
        eapply Forall_impl; [exact Hall|]. simpl. intros; lia.
    + split; [done|]. split.
      * apply Forall_app. split; [done|]. by repeat constructor.
      * destruct Hwho as [?|(G1 & v & G2 & -> & Hp & HG1)]; [by left|].
        right. exists G1, v, (G2 ++ [w]).
        by rewrite <- app_assoc.
Qed.

(** The entry stored under a key after the fold. *)
Lemma agg_get_fold_left k raw agg :
  agg_get k (fold_left fold_violation raw agg)
  = match group k raw with
    | [] => agg_get k agg
    | v :: G => Some (merge_all (v :: G) (default (seed v) (agg_get k agg)))
    end.
Proof.
  revert agg. induction raw as [|w raw IH]; intros agg; [done|].
  simpl. rewrite IH, agg_get_fold_violation. unfold group.
  rewrite filter_cons. destruct (decide (key_of w = k)) as [Hk|Hk].
  - simpl. by destruct (filter _ raw).
  - done.
Qed.

Lemma agg_get_fold_violations k raw :
  agg_get k (fold_violations raw)
  = match group k raw with
    | [] => None
    | v :: G => Some (merge_all (v :: G) (seed v))
    end.
Proof. unfold fold_violations. by rewrite agg_get_fold_left. Qed.

(** Every row of the result comes from an entry of [agg], and that entry is
    the first violation of its group with the whole group merged into it. *)
Lemma elem_of_aggregate raw r :
  r ∈ aggregate raw →
  ∃ v G, group (row_key r) raw = v :: G
         ∧ r = row_of_entry (merge_all (v :: G) (seed v)).
Proof.
  unfold aggregate. rewrite list_sort_Permutation. unfold rows_of.
  intros ([k e] & -> & Hin)%list_elem_of_fmap_1. simpl.
  apply agg_get_elem_of in Hin; [|apply NoDup_fold_violations_keys].
  rewrite agg_get_fold_violations in Hin.
  destruct (group k raw) as [|v G] eqn:HG; [done|].
  injection Hin as <-.
  assert (key_of v = k) as Hk.
  { assert (v ∈ group k raw) as Hv by (rewrite HG; left).
    unfold group in Hv. by apply list_elem_of_filter in Hv as [? _]. }
  exists v, G. split; [|done].
  change (row_key (row_of_entry ?e)) with (entry_key e).
  rewrite merge_all_key, ?merge_into_key.
  change (entry_key (seed v)) with (key_of v). by rewrite Hk.
Qed.

(** ** Replaying violations *)

Lemma fold_violation_absorbed v agg :
  absorbed v agg → fold_violation agg v = agg.
Proof.
  intros (e & Hget & Hu & Hr). unfold fold_violation.
  rewrite agg_mem_get, bool_decide_eq_true_2 by eauto.
  eapply agg_modify_id; [done|]. by apply merge_into_id.
Qed.

Lemma absorbed_fold_violation_same v agg : absorbed v (fold_violation agg v).
Proof.
  eexists. rewrite agg_get_fold_violation, decide_True by done.
  split; [done|]. rewrite merge_into_urls, merge_into_priority.
  split; [set_solver|]. case_gtb; lia.
Qed.

Lemma absorbed_fold_violation v w agg :
  absorbed v agg → absorbed v (fold_violation agg w).
Proof.
  intros (e & Hget & Hu & Hr). unfold absorbed.
  rewrite agg_get_fold_violation.
  destruct (decide (key_of w = key_of v)); [|eauto].
  eexists. split; [done|]. rewrite Hget. simpl.
  rewrite merge_into_urls, merge_into_priority.
  split; [set_solver|]. case_gtb; lia.
Qed.

Lemma absorbed_fold_left v raw agg :
  absorbed v agg → absorbed v (fold_left fold_violation raw agg).
Proof.
  revert agg. induction raw as [|w raw IH]; intros agg Hv; [done|].
  simpl. by apply IH, absorbed_fold_violation.
Qed.

Lemma fold_left_absorbs raw agg :
  Forall (λ v, absorbed v (fold_left fold_violation raw agg)) raw.
Proof.
  revert agg. induction raw as [|w raw IH]; intros agg; [constructor|].
  simpl. constructor; [|apply IH].
  apply absorbed_fold_left, absorbed_fold_violation_same.
Qed.

Lemma fold_left_absorbed raw agg :
  Forall (λ v, absorbed v agg) raw → fold_left fold_violation raw agg = agg.
Proof.
  induction 1 as [|w raw Hw _ IH]; [done|].
  simpl. by rewrite fold_violation_absorbed.
Qed.

Lemma fold_violations_replay raw :
  fold_violations (raw ++ raw) = fold_violations raw.
Proof.
  unfold fold_violations. rewrite fold_left_app.
  apply fold_left_absorbed, fold_left_absorbs.
Qed.

(** ** Rows and keys *)

Lemma unsorted_rows_keys raw :
  map row_key (unsorted_rows raw) = first_seen (map key_of raw).
Proof.
  rewrite <- fold_violations_keys. unfold unsorted_rows, rows_of.
  rewrite map_map. apply map_ext_in. intros [k e] Hin%list_elem_of_In.
  apply agg_get_elem_of in Hin; [|apply NoDup_fold_violations_keys].
  rewrite agg_get_fold_violations in Hin. simpl.
  destruct (group k raw) as [|v G] eqn:HG; [done|]. injection Hin as <-.
  change (row_key (row_of_entry ?e)) with (entry_key e).
  rewrite merge_all_key, ?merge_into_key.
  assert (v ∈ group k raw) as Hv by (rewrite HG; left).
  unfold group in Hv. by apply list_elem_of_filter in Hv as [? _].
Qed.

Lemma sort_key_place (r : Row) (k : Z * string) :
  sort_key r = ((k.1 * -1)%Z, k.2) ↔ place r = k.
Proof.
  unfold sort_key, place. rewrite sort_rank_rank. destruct k as [n i]. simpl.
  split; intros [= ? ?]; f_equal; [lia|done|lia|done].
Qed.

(** ** The aggregator's properties *)

(** C2: the priority of every row of the aggregate is the priority of the
    first violation of its group that has the highest rank of the group
    (every earlier one ranks strictly lower, every later one at most as
    high); one step of the fold replaces the stored priority exactly when the
    new rank is strictly greater, so it never lowers the rank; the ranks are
    critical 3, serious 2, moderate 1, minor 0 and -1 for anything else. *)
Theorem aggregate_priority_is_group_maximum
    (raw : list RawViolation) (r : Row) :
  r ∈ aggregate raw →
  (∃ G1 v G2,
      group (row_key r) raw = G1 ++ v :: G2
      ∧ row_priority r = priority v
      ∧ Forall (λ w, (rank (priority w) < rank (priority v))%Z) G1
      ∧ Forall (λ w, (rank (priority w) ≤ rank (priority v))%Z) G2)
  ∧ (∀ w e,
      entry_priority (merge_into w e)
      = (if (rank (priority w) >? rank (entry_priority e))%Z
         then priority w else entry_priority e)
      ∧ (rank (entry_priority e) ≤ rank (entry_priority (merge_into w e)))%Z)
  ∧ (rank "critical" = 3%Z ∧ rank "serious" = 2%Z ∧ rank "moderate" = 1%Z
     ∧ rank "minor" = 0%Z ∧ rank "" = (-1)%Z
     ∧ ∀ p, p ∉ ["critical"; "serious"; "moderate"; "minor"] →
            rank p = (-1)%Z).
Proof.
  intros Hr. split; [|split].
  - apply elem_of_aggregate in Hr as (v0 & G & HG & ->).
    rewrite HG. change (row_priority (row_of_entry ?e)) with (entry_priority e).
    destruct (merge_all_priority (v0 :: G) (seed v0)) as (_ & Hall & Hwho).
    cbv zeta in *. set (p := entry_priority (merge_all (v0 :: G) (seed v0))) in *.
    destruct Hwho as [Hp|(G1 & v & G2 & Hsplit & Hp & HG1)].
    + exists [], v0, G. change (entry_priority (seed v0)) with (priority v0) in Hp.
      rewrite <- Hp. split; [done|]. split; [done|]. split; [constructor|].
      by apply Forall_cons in Hall as [_ ?].
    + exists G1, v, G2. rewrite <- Hp. split; [done|]. split; [done|].
      split; [done|]. rewrite Hsplit in Hall.
      apply Forall_app in Hall as [_ Hall]. by apply Forall_cons in Hall as [_ ?].
  - intros w e. rewrite merge_into_priority. split; [done|]. case_gtb; lia.
  - destruct rank_table as (? & ? & ? & ? & ?). repeat (split; [done|]).
    apply rank_unknown.
Qed.

Lemma aggregate_priority_is_group_maximum_witness :
  let minor := mkRaw "https://a/1" "minor" "d" "<img>" "" "" "image-alt" "img" "" in
  let critical := mkRaw "https://a/2" "critical" "d" "<img>" "" "" "image-alt" "img" "" in
  let moderate := mkRaw "https://a/3" "moderate" "d" "<img>" "" "" "image-alt" "img" "" in
  ∃ r, aggregate [minor; critical; moderate] = [r]
       ∧ row_priority r = "critical"
       ∧ ∃ G1 v G2,
           group (row_key r) [minor; critical; moderate] = G1 ++ v :: G2
           ∧ row_priority r = priority v.
Proof.
  intros minor critical moderate.
  eexists. split; [vm_compute; reflexivity|]. split; [reflexivity|].
  edestruct (aggregate_priority_is_group_maximum [minor; critical; moderate])
    as [(G1 & v & G2 & HG & Hp & _) _].
  { vm_compute. left. }
  exists G1, v, G2. split; [exact HG|exact Hp].
Defined.

(** C3: replaying the whole input a second time does not change the
    aggregate, and recomputing the aggregate of an application state leaves
    the raw violations as they were and gives the same rows again. *)
Theorem aggregate_replay_idempotent
    (raw : list RawViolation) (self : App) :
  aggregate (raw ++ raw) = aggregate raw
  ∧ raw_results (build_aggregated_results self) = raw_results self
  ∧ build_aggregated_results (build_aggregated_results self)
    = build_aggregated_results self.
Proof.
  split; [|done]. unfold aggregate. by rewrite fold_violations_replay.
Qed.

(** C9: in every row of the aggregate, [url_count] is the number of URLs
    listed, no URL is listed twice, and the URLs listed are those of the
    violations of the row's group. *)
Theorem aggregate_url_count (raw : list RawViolation) (r : Row) :
  r ∈ aggregate raw →
  row_url_count r = length (row_urls r)
  ∧ NoDup (row_urls r)
  ∧ ∀ u, u ∈ row_urls r ↔ ∃ v, v ∈ raw ∧ key_of v = row_key r ∧ url v = u.
Proof.
  intros Hr. pose proof Hr as (v0 & G & HG & Hrow)%elem_of_aggregate.
  split; [by rewrite Hrow|].
  assert (row_urls r ≡ₚ elements (entry_urls (merge_all (v0 :: G) (seed v0))))
    as Hperm by (rewrite Hrow; apply merge_sort_Permutation).
  split.
  - rewrite Hperm. apply NoDup_elements.
  - intros u. rewrite Hperm, elem_of_elements, merge_all_urls, <- HG.
    change (entry_urls (seed v0)) with (∅ : gset string).
    rewrite elem_of_union, elem_of_list_to_set, list_elem_of_fmap.
    unfold group. setoid_rewrite list_elem_of_filter. set_solver.
Qed.

Lemma aggregate_url_count_witness :
  let v1 := mkRaw "https://a/1" "minor" "d" "<img>" "" "" "image-alt" "img" "" in
  let v2 := mkRaw "https://a/2" "minor" "d" "<img>" "" "" "image-alt" "img" "" in
  ∃ r, aggregate [v1; v2; v1] = [r]
       ∧ row_url_count r = 2 ∧ row_url_count r = length (row_urls r)
       ∧ NoDup (row_urls r).
Proof.
  intros v1 v2. eexists. split; [vm_compute; reflexivity|].
  split; [reflexivity|].
  edestruct (aggregate_url_count [v1; v2; v1]) as (Hc & Hnd & _).
  { vm_compute. left. }
  split; [exact Hc|exact Hnd].
Defined.

Lemma StronglySorted_weaken {A} (R1 R2 : relation A) (l : list A) :
  (∀ a b, R1 a b → R2 a b) → StronglySorted R1 l → StronglySorted R2 l.
Proof.
  intros HR. induction 1 as [|x l _ IH Hx]; constructor; [done|].
  eapply Forall_impl; [exact Hx|]. apply HR.
Qed.

(** C4, as stated, fails: the two orders of the same two violations give the
    same two rows in two different orders. *)
Lemma aggregate_order_follows_input :
  [on_div; on_span] ≡ₚ [on_span; on_div]
  ∧ row_tag <$> aggregate [on_div; on_span] = ["div"; "span"]
  ∧ row_tag <$> aggregate [on_span; on_div] = ["span"; "div"]
  ∧ aggregate [on_div; on_span] ≠ aggregate [on_span; on_div]
  ∧ aggregate [on_div; on_span] ≡ₚ aggregate [on_span; on_div].
Proof.
  split; [apply Permutation_swap|].
  split; [by vm_compute|]. split; [by vm_compute|].
  split; [by vm_compute|]. vm_compute. apply Permutation_swap.
Qed.

(** C4, amended: the rows are sorted by severity rank descending, then by
    rule id ascending; they are the rows of the dict, one per key; and rows
    that agree on rank and rule id stay in the order in which their keys
    first occur in the input. *)
Theorem aggregate_sorted_stable (raw : list RawViolation) :
  StronglySorted row_le (aggregate raw)
  ∧ aggregate raw ≡ₚ unsorted_rows raw
  ∧ map row_key (unsorted_rows raw) = first_seen (map key_of raw)
  ∧ ∀ k, filter (λ r, place r = k) (aggregate raw)
         = filter (λ r, place r = k) (unsorted_rows raw).
Proof.
  split; [|split; [|split]].
  - unfold aggregate.
    eapply StronglySorted_weaken;
      [|apply StronglySorted_list_sort;
        [apply sort_key_lt_asym|apply sort_key_le_trans]].
    intros a b. apply sort_key_le_row_le.
  - apply list_sort_Permutation.
  - apply unsorted_rows_keys.
  - intros k. unfold aggregate. fold (unsorted_rows raw).
    rewrite <- !(list_filter_iff _ _ _ (λ r, sort_key_place r k)).
    apply list_sort_stable, sort_key_lt_irrefl.
Qed.

(** ** The scan loop *)

Section scan.
Context `{Scanner}.
Implicit Types self : App.
Implicit Types urls : list string.

Lemma run_axe_scan_url u v : v ∈ run_axe_scan u → url v = u.
Proof.
  unfold run_axe_scan. destruct (session u) as [e|found].
  - by intros ->%list_elem_of_singleton.
  - by intros (f & -> & _)%list_elem_of_fmap_1.
Qed.

Lemma run_axe_scan_raised u e :
  session u = Raised e → run_axe_scan u = [scan_error u e].
Proof. unfold run_axe_scan. by intros ->. Qed.

(** Once the flag is set the loop starts no scan. *)
Lemma scan_loop_cancelled clicks i urls self :
  cancel_requested self = true → scan_loop clicks i urls self = self.
Proof. intros Hc. destruct urls; simpl; [done|]. by rewrite Hc. Qed.

Lemma scan_loop_app clicks i urls1 urls2 self :
  scan_loop clicks i (urls1 ++ urls2) self
  = scan_loop clicks (i + length urls1) urls2
      (scan_loop clicks i urls1 self).
Proof.
  revert i self. induction urls1 as [|u urls1 IH]; intros i self; simpl.
  - by rewrite Nat.add_0_r.
  - destruct (cancel_requested self) eqn:Hc.
    + by rewrite scan_loop_cancelled.
    + rewrite IH. f_equal. lia.
Qed.

(** The loop as long as no click is handled before its last URL is in
    flight: every URL is scanned, in order, and the flag ends as the last
    click left it. *)
Lemma scan_loop_run clicks i urls self :
  cancel_requested self = false →
  is_scanning self = true →
  (∀ j, i ≤ j < i + length urls - 1 → clicks j = false) →
  let self' := scan_loop clicks i urls self in
  raw_results self' = raw_results self ++ concat (map run_axe_scan urls)
  ∧ results self' = results self
  ∧ is_scanning self' = true
  ∧ cancel_requested self'
    = match urls with [] => false | _ => clicks (i + length urls - 1) end
  ∧ progress_value self'
    = match urls with
      | [] => progress_value self
      | _ => i + length urls - 1
      end.
Proof.
  revert i self. induction urls as [|u urls IH]; intros i self Hc Hs Hq.
  - simpl. by rewrite app_nil_r.
  - cbv zeta. simpl scan_loop. rewrite Hc.
    set (self0 := record_scan (run_axe_scan u) i _).
    destruct urls as [|u' urls].
    + simpl. replace (i + 1 - 1) with i by lia.
      unfold interface, cancel_scan. simpl. rewrite Hs. simpl.
      rewrite app_nil_r. by destruct (clicks i).
    + assert (clicks i = false) as Hi by (apply Hq; simpl; lia).
      unfold interface. rewrite Hi.
      destruct (IH (S i) self0) as (Hraw & Hres & Hsc & Hcr & Hpv);
        [done|done|intros j Hj; apply Hq; simpl in *; lia|].
      cbv zeta in *. rewrite Hraw, Hres, Hsc, Hcr, Hpv. simpl.
      rewrite <- !app_assoc.
      repeat split; [f_equal|]; lia.
Qed.

(** The run when the first click on Cancel is handled while URL number
    [length scanned] is in flight (or before the loop starts, when
    [scanned] is empty). *)
Lemma run_scan_thread_cancel clicks scanned rest self :
  cancel_requested self = false →
  is_scanning self = true →
  (∀ j, j < length scanned → clicks j = false) →
  clicks (length scanned) = true →
  let final := run_scan_thread clicks (scanned ++ rest) self in
  raw_results final
    = raw_results self ++ concat (map run_axe_scan scanned)
  ∧ status_label final = "Scan cancelled."
  ∧ results final = aggregate (raw_results final)
  ∧ is_scanning final = false
  ∧ progress_value final
    = match scanned with [] => progress_value self | _ => length scanned end.
Proof.
  intros Hc Hs Hq Hk. cbv zeta. unfold run_scan_thread.
  rewrite scan_loop_app.
  destruct scanned as [|u scanned].
  - simpl in *. unfold interface. rewrite Hk.
    rewrite scan_loop_cancelled by (unfold cancel_scan; by rewrite Hs).
    unfold cancel_scan. rewrite Hs. simpl. by rewrite app_nil_r.
  - replace (interface clicks 0 self) with self
      by (unfold interface; by rewrite (Hq 0) by (simpl; lia)).
    edestruct (scan_loop_run clicks 1 (u :: scanned) self)
      as (Hraw & Hres & Hsc & Hcr & Hpv); [done..| |].
    { intros j Hj. apply Hq. simpl in *. lia. }
    cbv zeta in *.
    replace (1 + length (u :: scanned) - 1) with (length (u :: scanned))
      in * by lia.
    rewrite Hk in Hcr. rewrite scan_loop_cancelled by done.
    rewrite Hcr. read_fields. by rewrite Hraw, Hpv.
Qed.

(** The run when no click on Cancel is handled before it ends. *)
Lemma run_scan_thread_complete clicks urls self :
  cancel_requested self = false →
  is_scanning self = true →
  (∀ j, j ≤ length urls → clicks j = false) →
  let final := run_scan_thread clicks urls self in
  raw_results final = raw_results self ++ concat (map run_axe_scan urls)
  ∧ status_label final = "Scan complete."
  ∧ results final = aggregate (raw_results final)
  ∧ is_scanning final = false
  ∧ progress_value final
    = match urls with [] => progress_value self | _ => length urls end.
Proof.
  intros Hc Hs Hq. cbv zeta. unfold run_scan_thread.
  replace (interface clicks 0 self) with self
    by (unfold interface; by rewrite (Hq 0) by lia).
  edestruct (scan_loop_run clicks 1 urls self)
    as (Hraw & Hres & Hsc & Hcr & Hpv); [done..| |].
  { intros j Hj. apply Hq. lia. }
  cbv zeta in *.
  assert (cancel_requested (scan_loop clicks 1 urls self) = false) as Hcr'.
  { rewrite Hcr. destruct urls; [done|]. apply Hq. simpl. lia. }
  rewrite Hcr'. read_fields. rewrite Hraw, Hpv.
  repeat split. destruct urls; [done|]. simpl. lia.
Qed.
End scan.

(** C6: the loop reads the flag before each URL and, once it is set, starts
    no scan. When the first click on Cancel is handled once the URLs
    [scanned] have been scanned (while the last of them was in flight or just
    after it), no URL of [rest] is scanned: the raw results are those of
    [scanned] alone, in order, the progress counter stands at their number,
    and the run ends as cancelled, not as complete. *)
Theorem cancel_stops_before_next_url `{Scanner}
    (clicks : nat → bool) (scanned rest : list string) (self : App) :
  cancel_requested self = false →
  is_scanning self = true →
  (∀ j, j < length scanned → clicks j = false) →
  clicks (length scanned) = true →
  let final := run_scan_thread clicks (scanned ++ rest) self in
  raw_results final = raw_results self ++ concat (map run_axe_scan scanned)
  ∧ (∀ v, v ∈ raw_results final → v ∈ raw_results self ∨ url v ∈ scanned)
  ∧ progress_value final
    = match scanned with [] => progress_value self | _ => length scanned end
  ∧ status_label final = "Scan cancelled."
  ∧ status_label final ≠ "Scan complete."
  ∧ results final = aggregate (raw_results final)
  ∧ ∀ i urls self',
      cancel_requested self' = true → scan_loop clicks i urls self' = self'.
Proof.
  intros Hc Hs Hq Hk.
  destruct (run_scan_thread_cancel clicks scanned rest self)
    as (Hraw & Hst & Hres & _ & Hpv); [done..|].
  cbv zeta. rewrite Hst. repeat split; try done;
    [|intros i urls self' Hc'; by apply scan_loop_cancelled].
  intros v. rewrite Hraw. intros [?|Hv]%elem_of_app; [by left|right].
  apply list_elem_of_In, in_concat in Hv as (l & Hl & Hv).
  apply in_map_iff in Hl as (u & <- & Hu).
  apply list_elem_of_In in Hv, Hu. by rewrite (run_axe_scan_url u v).
Qed.

Lemma cancel_stops_before_next_url_witness :
  let clicks := λ j, bool_decide (j = 2) in
  let final :=
    @run_scan_thread sample_scanner clicks sample_queue sample_start in
  url <$> raw_results final = ["https://site/1"; "https://site/2"]
  ∧ progress_value final = 2
  ∧ status_label final = "Scan cancelled.".
Proof.
  intros clicks final.
  destruct (@cancel_stops_before_next_url sample_scanner clicks
              ["https://site/1"; "https://site/2"]
              ["https://site/3"; "https://site/4"; "https://site/5"]
              sample_start) as (Hraw & _ & Hpv & Hst & _).
  - reflexivity.
  - reflexivity.
  - intros j Hj. simpl in Hj. apply bool_decide_eq_false. lia.
  - reflexivity.
  - cbn [app] in Hraw. split; [|split].
    + unfold final, sample_queue. by rewrite Hraw.
    + exact Hpv.
    + exact Hst.
Defined.

(** C7: when the browser session raises for a URL of the queue and no click
    on Cancel is handled, the run records one synthetic violation for that
    URL, with rule id SCAN_ERROR, priority critical and the message in its
    description, between the results of the URLs before it and those of the
    URLs after it, which are all scanned. *)
Theorem scan_failure_is_contained `{Scanner}
    (clicks : nat → bool) (before after : list string) (u e : string)
    (self : App) :
  cancel_requested self = false →
  is_scanning self = true →
  (∀ j, j ≤ length (before ++ u :: after) → clicks j = false) →
  session u = Raised e →
  let final := run_scan_thread clicks (before ++ u :: after) self in
  raw_results final
    = raw_results self ++ concat (map run_axe_scan before)
      ++ [scan_error u e] ++ concat (map run_axe_scan after)
  ∧ progress_value final = length (before ++ u :: after)
  ∧ status_label final = "Scan complete."
  ∧ url (scan_error u e) = u
  ∧ rule_id (scan_error u e) = "SCAN_ERROR"
  ∧ priority (scan_error u e) = "critical"
  ∧ description (scan_error u e) = "SCAN ERROR: " +:+ e.
Proof.
  intros Hc Hs Hq He.
  destruct (run_scan_thread_complete clicks (before ++ u :: after) self)
    as (Hraw & Hst & _ & _ & Hpv); [done..|].
  cbv zeta. rewrite Hraw, Hst, Hpv.
  rewrite map_app, concat_app. simpl. rewrite (run_axe_scan_raised u e He).
  repeat split. by destruct before.
Qed.

Lemma scan_failure_is_contained_witness :
  let final :=
    @run_scan_thread sample_scanner (λ _, false) sample_queue sample_start in
  (url <$> raw_results final) = sample_queue
  ∧ (rule_id <$> raw_results final)
    = ["image-alt"; "image-alt"; "SCAN_ERROR"; "image-alt"; "image-alt"]
  ∧ progress_value final = 5
  ∧ status_label final = "Scan complete.".
Proof.
  intros final.
  destruct (@scan_failure_is_contained sample_scanner (λ _, false)
              ["https://site/1"; "https://site/2"]
              ["https://site/4"; "https://site/5"]
              "https://site/3" "Timeout 30000ms exceeded" sample_start)
    as (Hraw & Hpv & Hst & _).
  - reflexivity.
  - reflexivity.
  - reflexivity.
  - reflexivity.
  - cbn [app] in Hraw. unfold final, sample_queue. rewrite Hraw.
    split; [reflexivity|]. split; [reflexivity|]. split; [exact Hpv|exact Hst].
Defined.

(** C10: when the first click on Cancel is handled while the last URL of the
    queue is in flight, every URL has been scanned and the raw results and
    the aggregate are those of a run without any click, yet the run ends as
    cancelled, where the run without a click ends as complete. *)
Theorem cancel_during_last_scan `{Scanner}
    (clicks : nat → bool) (urls : list string) (self : App) :
  cancel_requested self = false →
  is_scanning self = true →
  (∀ j, j < length urls → clicks j = false) →
  clicks (length urls) = true →
  let final := run_scan_thread clicks urls self in
  let quiet := run_scan_thread (λ _, false) urls self in
  raw_results final = raw_results self ++ concat (map run_axe_scan urls)
  ∧ raw_results final = raw_results quiet
  ∧ results final = results quiet
  ∧ progress_value final = progress_value quiet
  ∧ status_label final = "Scan cancelled."
  ∧ status_label quiet = "Scan complete.".
Proof.
  intros Hc Hs Hq Hk.
  destruct (run_scan_thread_cancel clicks urls [] self)
    as (Hraw & Hst & Hres & _ & Hpv); [done..|].
  destruct (run_scan_thread_complete (λ _, false) urls self)
    as (Hraw' & Hst' & Hres' & _ & Hpv'); [done..|].
  cbv zeta in *. rewrite app_nil_r in *.
  rewrite Hres, Hres', Hraw, Hraw', Hst, Hst', Hpv, Hpv'. done.
Qed.

Lemma cancel_during_last_scan_witness :
  let clicks := λ j, bool_decide (j = 5) in
  let final :=
    @run_scan_thread sample_scanner clicks sample_queue sample_start in
  (url <$> raw_results final) = sample_queue
  ∧ status_label final = "Scan cancelled.".
Proof.
  intros clicks final.
  destruct (@cancel_during_last_scan sample_scanner clicks sample_queue
              sample_start) as (Hraw & _ & _ & _ & Hst & _).
  - reflexivity.
  - reflexivity.
  - intros j Hj. simpl in Hj. apply bool_decide_eq_false. lia.
  - reflexivity.
  - split; [|exact Hst]. unfold final. by rewrite Hraw.
Defined.

(** ** Loops and the actions of a document *)

Section for_each.
Context {A B S : Type}.

Lemma for_each_ext (f g : A → S → option S) l st :
  (∀ x st, f x st = g x st) → for_each f l st = for_each g l st.
Proof.
  intros Hfg. revert st. induction l as [|x l IH]; intros st; simpl; [done|].
  rewrite Hfg. destruct (g x st); [apply IH|done].
Qed.

Lemma for_each_omap (h : A → option B) (f : B → S → option S) l st :
  for_each f (omap h l) st
  = for_each (λ x st, match h x with Some y => f y st | None => Some st end)
      l st.
Proof.
  revert st. induction l as [|x l IH]; intros st; simpl; [done|].
  destruct (h x) as [y|]; simpl; [|apply IH].
  destruct (f y st); [apply IH|done].
Qed.

Lemma for_each_fold_left (g : S → A → S) l st :
  for_each (λ x st, Some (g st x)) l st = Some (fold_left g l st).
Proof. revert st. induction l as [|x l IH]; intros st; simpl; [done|apply IH]. Qed.

Lemma for_each_cons (f : A → S → option S) x l st :
  for_each f (x :: l) st = f x st ≫= for_each f l.
Proof. simpl. by destruct (f x st). Qed.

Lemma for_each_app (f : A → S → option S) l1 l2 st :
  for_each f (l1 ++ l2) st = for_each f l1 st ≫= for_each f l2.
Proof.
  revert st. induction l1 as [|x l1 IH]; intros st; simpl; [done|].
  destruct (f x st); [apply IH|done].
Qed.
End for_each.

Section resolver.
Context `{Site}.
Implicit Types st : Crawl.

(** One call of [_walk], whatever the parsing path: skip a visited URL;
    else mark it, fetch it, and run the actions of the document. *)
Lemma walk_unfold fuel u st :
  _walk (S fuel) u st
  = if decide (u ∈ visited st) then Some st
    else
      let st1 := (fetch_sitemap_xml u (visit u st)).2 in
      match served !! u with
      | None => Some st1
      | Some xml =>
        if decide (xml = "") then Some st1
        else for_each (do_action fuel) (node_actions xml) st1
      end.
Proof.
  simpl. destruct (decide (u ∈ visited st)); [done|].
  destruct (served !! u) as [xml|]; [|done].
  destruct (decide (xml = "")); [done|].
  unfold node_actions. destruct (is_html xml).
  { destruct (html_rows xml) as [rows|]; [|done].
    rewrite for_each_omap. apply for_each_ext. intros [a|] st'; [|done].
    simpl. destruct (decide _); [done|]. by destruct (endswith _ _). }
  destruct (try_read_xml xml "//sitemap" ≫= loc_column) as [col|].
  { rewrite for_each_omap. apply for_each_ext. intros loc st'.
    simpl. by destruct (decide _). }
  destruct (try_read_xml xml "//url" ≫= loc_column) as [col|].
  { rewrite for_each_omap. simpl. by rewrite for_each_fold_left. }
  destruct (sitemapindex (xml_soup xml)) as [childs|].
  { rewrite for_each_omap. apply for_each_ext. intros [t|] st'; [|done].
    destruct (decide _); [done|]. simpl. by destruct (endswith _ _). }
  destruct (urlset (xml_soup xml)) as [urls|]; [|done].
  rewrite for_each_omap. rewrite <- for_each_fold_left.
  apply for_each_ext. intros [t|] st'; [|done]. by destruct (decide _).
Qed.
End resolver.

(** ** Page URLs collected and requests sent *)

Lemma collect_app pages out1 out2 :
  collect pages (out1 ++ out2) = collect (collect pages out1) out2.
Proof. apply fold_left_app. Qed.

Lemma collect_first_seen pages out :
  collect pages out
  = pages ++ first_seen_from pages (filter (λ u, u ≠ "") out).
Proof.
  rewrite <- fold_left_append_unseen. unfold collect. revert pages.
  induction out as [|u out IH]; intros pages; [done|].
  rewrite filter_cons. simpl. destruct (decide (u ≠ "")) as [Hu|Hu].
  - simpl. rewrite <- IH. f_equal.
    destruct (decide (u ∈ pages)).
    + by rewrite decide_False by tauto.
    + by rewrite decide_True by tauto.
  - rewrite decide_False by tauto. apply IH.
Qed.

Lemma add_page_url_collect u st :
  visited (add_page_url u st) = visited st
  ∧ requests (add_page_url u st) = requests st
  ∧ page_urls (add_page_url u st) = collect (page_urls st) [u].
Proof. unfold add_page_url, collect. simpl. by destruct (decide _). Qed.

Lemma grows_refl st : grows st st.
Proof.
  exists []. rewrite app_nil_r. split; [done|]. split; [constructor|].
  split; [set_solver|]. by intros x ?%elem_of_nil.
Qed.

Lemma grows_eq st st' :
  visited st' = visited st → requests st' = requests st → grows st st'.
Proof.
  intros Hv Hr. destruct (grows_refl st) as (new & ? & ? & ? & ?).
  exists new. by rewrite Hv, Hr.
Qed.

Lemma grows_trans st1 st2 st3 : grows st1 st2 → grows st2 st3 → grows st1 st3.
Proof.
  intros (new1 & Hr1 & Hn1 & Hv1 & Hf1) (new2 & Hr2 & Hn2 & Hv2 & Hf2).
  exists (new1 ++ new2). rewrite Hr2, Hr1, Hv2, Hv1, app_assoc.
  split; [done|]. split; [|split].
  - apply NoDup_app. split; [done|]. split; [|done].
    intros x Hx1 Hx2. apply (Hf2 x Hx2). rewrite Hv1. set_solver.
  - rewrite list_to_set_app_L. set_solver.
  - intros x [?|Hx]%elem_of_app; [by apply Hf1|].
    intros ?. apply (Hf2 x Hx). rewrite Hv1. set_solver.
Qed.

Lemma grows_fetch `{Site} u st :
  u ∉ visited st → grows st (fetch_sitemap_xml u (visit u st)).2.
Proof.
  intros Hu. exists [u]. simpl. split; [done|]. split; [apply NoDup_singleton|].
  split; [set_solver|]. by intros x ->%list_elem_of_singleton.
Qed.

Lemma grows_subseteq st st' : grows st st' → visited st ⊆ visited st'.
Proof. intros (new & _ & _ & -> & _). set_solver. Qed.

(** ** What a call of [_walk] that returns has done *)

Section walk.
Context `{Site}.
Implicit Types st : Crawl.

Lemma for_each_post fuel :
  (∀ u st st', _walk fuel u st = Some st' → walk_post st u st') →
  ∀ acts st st',
    for_each (do_action fuel) acts st = Some st' → entries_post st acts st'.
Proof.
  intros IH acts. induction acts as [|a acts IHacts]; intros st st'; simpl.
  - intros [= <-]. split; [apply grows_refl|].
    exists []. split; [constructor|done].
  - destruct (do_action fuel a st) as [st1|] eqn:Ha; [|done].
    intros (Hg & out & Hl & Hp)%IHacts. destruct a as [child|p]; simpl in Ha.
    + apply IH in Ha as (Hg1 & _ & out1 & Hl1 & Hp1).
      split; [by eapply grows_trans|].
      exists (out1 ++ out). split; [by econstructor|].
      by rewrite collect_app, <- Hp1.
    + injection Ha as <-.
      destruct (add_page_url_collect p st) as (Hv & Hr & Hpg).
      split; [eapply grows_trans; [by apply grows_eq|done]|].
      exists (p :: out). rewrite Hv in Hl. split; [by constructor|].
      by rewrite Hp, Hpg.
Qed.

Lemma walk_sound fuel u st st' :
  _walk fuel u st = Some st' → walk_post st u st'.
Proof.
  revert u st st'. induction fuel as [|fuel IH]; intros u st st'; [done|].
  rewrite walk_unfold. destruct (decide (u ∈ visited st)) as [Hu|Hu].
  { intros [= <-]. split; [apply grows_refl|]. split; [done|].
    exists []. split; [by constructor|done]. }
  cbv zeta. set (st1 := (fetch_sitemap_xml u (visit u st)).2).
  assert (grows st st1) as Hg1 by by apply grows_fetch.
  assert (u ∈ visited st1) as Hu1 by (simpl; set_solver).
  destruct (served !! u) as [xml|] eqn:Hxml.
  2:{ intros [= <-]. split; [done|]. split; [done|].
      exists []. split; [by apply listing_failed|done]. }
  destruct (decide (xml = "")) as [->|Hne].
  { intros [= <-]. split; [done|]. split; [done|].
    exists []. split; [by apply listing_blank|done]. }
  intros (Hg & out & Hl & Hp)%(for_each_post fuel IH).
  split; [by eapply grows_trans|].
  split; [by apply (grows_subseteq _ _ Hg)|].
  exists out. split; [|done]. by eapply listing_document.
Qed.

Lemma walk_visited_mono fuel u st st' :
  _walk fuel u st = Some st' → visited st ⊆ visited st'.
Proof. intros (Hg & _)%walk_sound. by apply grows_subseteq. Qed.

(** Fuel remaining above the number of served documents not yet visited is
    enough. *)
Lemma for_each_terminates fuel :
  (∀ u st, size (dom served ∖ visited st) < fuel →
           is_Some (_walk fuel u st)) →
  ∀ acts st, size (dom served ∖ visited st) < fuel →
             is_Some (for_each (do_action fuel) acts st).
Proof.
  intros IH acts. induction acts as [|a acts IHacts]; intros st Hst; simpl.
  - eauto.
  - destruct a as [child|p]; simpl.
    + destruct (IH child st Hst) as [st1 Hst1]. rewrite Hst1.
      apply IHacts. apply walk_visited_mono in Hst1.
      eapply Nat.le_lt_trans; [|exact Hst].
      apply subseteq_size. set_solver.
    + apply IHacts.
      by destruct (add_page_url_collect p st) as (-> & _).
Qed.

Lemma walk_terminates fuel u st :
  size (dom served ∖ visited st) < fuel → is_Some (_walk fuel u st).
Proof.
  revert u st. induction fuel as [|fuel IH]; intros u st Hst; [lia|].
  rewrite walk_unfold. destruct (decide (u ∈ visited st)) as [Hu|Hu]; [eauto|].
  cbv zeta. destruct (served !! u) as [xml|] eqn:Hxml; [|eauto].
  destruct (decide (xml = "")); [eauto|].
  apply for_each_terminates; [done|]. simpl.
  assert (dom served ∖ ({[u]} ∪ visited st) ⊂ dom served ∖ visited st)
    as Hlt%subset_size; [|lia].
  assert (u ∈ dom served) by (apply elem_of_dom; eauto).
  set_solver.
Qed.

Lemma for_each_mono {A} (f g : A → Crawl → option Crawl) l st st' :
  (∀ x st st', f x st = Some st' → g x st = Some st') →
  for_each f l st = Some st' → for_each g l st = Some st'.
Proof.
  intros Hfg. revert st. induction l as [|x l IH]; intros st; simpl; [done|].
  destruct (f x st) as [st1|] eqn:Hf; [|done].
  rewrite (Hfg _ _ _ Hf). apply IH.
Qed.

(** More fuel does not change the result. *)
Lemma walk_fuel_mono fuel fuel' u st st' :
  fuel ≤ fuel' → _walk fuel u st = Some st' → _walk fuel' u st = Some st'.
Proof.
  revert fuel' u st st'.
  induction fuel as [|fuel IH]; intros fuel' u st st' Hle; [done|].
  destruct fuel' as [|fuel']; [lia|]. rewrite !walk_unfold.
  destruct (decide (u ∈ visited st)); [done|]. cbv zeta.
  destruct (served !! u) as [xml|]; [|done].
  destruct (decide (xml = "")); [done|].
  apply for_each_mono. intros [child|p] st0 st0'; simpl; [|done].
  apply IH. lia.
Qed.

(** The whole crawl returns, and with any fuel above the number of served
    documents [_walk] returns the same state. *)
Lemma crawl_total root :
  ∃ st, crawl root = Some st
        ∧ ∀ fuel, size served < fuel → _walk fuel root initial = Some st.
Proof.
  destruct (walk_terminates (S (size served)) root initial) as [st Hst].
  { simpl. rewrite difference_empty_L, size_dom. lia. }
  exists st. split; [done|]. intros fuel Hfuel.
  eapply walk_fuel_mono; [|exact Hst]. lia.
Qed.

Lemma crawl_requests root st :
  crawl root = Some st →
  NoDup (requests st) ∧ visited st = list_to_set (requests st).
Proof.
  intros ((new & Hr & Hn & Hv & _) & _)%walk_sound.
  simpl in Hr, Hv. rewrite Hr, Hv. split; [done|set_solver].
Qed.
End walk.

(** ** The resolver's properties *)

(** C1: the traversal from any root URL returns, whatever the documents
    reference, with the fuel of [crawl] and with any larger one; the requests
    it sent are pairwise different, and they are the URLs it visited; a call
    for a URL that is already visited returns at once and leaves the state as
    it was. *)
Theorem resolver_terminates_fetching_once `{Site} (root_url : string) :
  ∃ st,
    crawl root_url = Some st
    ∧ (∀ fuel, size served < fuel → _walk fuel root_url initial = Some st)
    ∧ NoDup (requests st)
    ∧ visited st = list_to_set (requests st)
    ∧ ∀ fuel u st0, u ∈ visited st0 → _walk (S fuel) u st0 = Some st0.
Proof.
  destruct (crawl_total root_url) as (st & Hst & Hfuel).
  exists st. split; [done|]. split; [done|].
  destruct (crawl_requests _ _ Hst) as [Hn Hv]. split; [done|]. split; [done|].
  intros fuel u st0 Hu. rewrite walk_unfold. by rewrite decide_True.
Qed.

(** Two indexes that list each other: each is requested once. *)
Example cycle_is_cut :
  requests <$> (@crawl cycle "https://site/a.xml")
  = Some ["https://site/a.xml"; "https://site/b.xml"].
Proof. by vm_compute. Qed.

Section fallback.
Context `{Site}.
Implicit Types st : Crawl.

Lemma for_each_follow fuel l st :
  for_each (do_action fuel) (Follow <$> l) st = for_each (_walk fuel) l st.
Proof.
  revert st. induction l as [|c l IH]; intros st; simpl; [done|].
  destruct (_walk fuel c st); [apply IH|done].
Qed.

Lemma for_each_page fuel l st :
  for_each (do_action fuel) (Page <$> l) st
  = Some (fold_left (λ st p, add_page_url p st) l st).
Proof. revert st. induction l as [|p l IH]; intros st; simpl; [done|apply IH]. Qed.

Lemma for_each_walk_visited fuel l st st' :
  for_each (_walk fuel) l st = Some st' →
  visited st ⊆ visited st' ∧ ∀ c, c ∈ l → c ∈ visited st'.
Proof.
  revert st. induction l as [|c l IH]; intros st; simpl.
  - intros [= <-]. split; [done|]. by intros c ?%elem_of_nil.
  - destruct (_walk fuel c st) as [st1|] eqn:Hc; [|done].
    intros [Hsub Hin]%IH.
    apply walk_sound in Hc as (Hg%grows_subseteq & Hc & _).
    split; [set_solver|]. intros c' [->|?]%elem_of_cons; [set_solver|eauto].
Qed.

Lemma fold_add_page_url l st :
  let st' := fold_left (λ st p, add_page_url p st) l st in
  visited st' = visited st ∧ requests st' = requests st
  ∧ page_urls st' = collect (page_urls st) l.
Proof.
  revert st. induction l as [|p l IH]; intros st; [done|].
  cbv zeta. simpl. destruct (IH (add_page_url p st)) as (-> & -> & ->).
  by destruct (add_page_url_collect p st) as (-> & -> & ->).
Qed.

Lemma fallback_index_actions (childs : list (option string)) :
  omap (λ sm : option string,
    match sm with
    | Some loc_text =>
      if decide (loc_text = "") then None
      else
        let child := strip loc_text in
        if endswith child ".xml" then Some (Follow child) else None
    | None => None
    end) childs
  = Follow <$> fallback_children childs.
Proof.
  unfold fallback_children, dropna.
  induction childs as [|[t|] childs IH]; csimpl; [done| |done].
  destruct (decide (t = "")) as [Ht|Ht]; csimpl.
  - by rewrite filter_cons_False by tauto.
  - rewrite filter_cons_True by done. rewrite fmap_cons.
    destruct (endswith (strip t) ".xml") eqn:Hend; csimpl.
    + rewrite filter_cons_True by done. by rewrite fmap_cons, IH.
    + rewrite filter_cons_False; [done|]. by rewrite Hend.
Qed.

Lemma fallback_urlset_actions (urls : list (option string)) :
  omap (λ u : option string,
    match u with
    | Some loc_text =>
      if decide (loc_text = "") then None
      else Some (Page (strip loc_text))
    | None => None
    end) urls
  = Page <$> fallback_pages urls.
Proof.
  unfold fallback_pages, dropna.
  induction urls as [|[t|] urls IH]; csimpl; [done| |done].
  destruct (decide (t = "")) as [Ht|Ht]; csimpl.
  - by rewrite filter_cons_False by tauto.
  - rewrite filter_cons_True by done. by rewrite !fmap_cons, IH.
Qed.
End fallback.

(** C5, as stated, fails: the fallback reads an index with the children
    [sitemap-pages] and [post-sitemap.xml]; it recurses into the second one
    only, and the pages of the first one are not in the result. *)
Lemma fallback_skips_child_without_suffix :
  let xml := "<sitemapindex>pages post</sitemapindex>" in
  @served fallback_index !! "https://site/sitemap.xml" = Some xml
  ∧ is_html xml = false
  ∧ @try_read_xml fallback_index xml "//sitemap" = None
  ∧ @try_read_xml fallback_index xml "//url" = None
  ∧ sitemapindex (@xml_soup fallback_index xml)
    = Some [Some "https://site/sitemap-pages";
            Some "https://site/post-sitemap.xml"]
  ∧ ∃ st, @crawl fallback_index "https://site/sitemap.xml" = Some st
          ∧ requests st
            = ["https://site/sitemap.xml"; "https://site/post-sitemap.xml"]
          ∧ ("https://site/sitemap-pages" ∉ visited st)
          ∧ page_urls st = ["https://site/hello/"].
Proof.
  cbv zeta. repeat (split; [by vm_compute|]).
  destruct (@crawl_total fallback_index "https://site/sitemap.xml")
    as (st & Hst & _).
  destruct (@crawl_requests fallback_index _ _ Hst) as [_ Hv].
  exists st. split; [done|].
  assert (requests <$> (@crawl fallback_index "https://site/sitemap.xml")
          = Some ["https://site/sitemap.xml"; "https://site/post-sitemap.xml"])
    as Hr by (by vm_compute).
  assert (page_urls <$> (@crawl fallback_index "https://site/sitemap.xml")
          = Some ["https://site/hello/"]) as Hp by (by vm_compute).
  rewrite Hst in Hr, Hp. simpl in Hr, Hp. injection Hr as Hr. injection Hp as Hp.
  split; [done|]. split; [|done]. rewrite Hv, Hr.
  rewrite elem_of_list_to_set, !elem_of_cons, elem_of_nil.
  intros [?|[?|?]]; done.
Qed.

(** C5, amended: when a document is read by the element-tree fallback and
    has a [sitemapindex] root, the call recurses, in document order, into the
    stripped [loc] texts of its children that end in [.xml], and into no
    other child; every child so followed is visited when the call returns.
    When it has no [sitemapindex] root but a [urlset] root, the call hands the
    stripped [loc] text of each of its items to [add_page_url], in document
    order, and recurses nowhere. *)
Theorem fallback_walks_xml_children `{Site}
    (fuel : nat) (u xml : string) (st : Crawl) :
  u ∉ visited st →
  served !! u = Some xml →
  xml ≠ "" →
  is_html xml = false →
  try_read_xml xml "//sitemap" ≫= loc_column = None →
  try_read_xml xml "//url" ≫= loc_column = None →
  let st1 := (fetch_sitemap_xml u (visit u st)).2 in
  (∀ childs, sitemapindex (xml_soup xml) = Some childs →
     _walk (S fuel) u st
     = for_each (_walk fuel) (fallback_children childs) st1
     ∧ ∀ st', _walk (S fuel) u st = Some st' →
              ∀ child, child ∈ fallback_children childs → child ∈ visited st')
  ∧ (∀ urls, sitemapindex (xml_soup xml) = None →
             urlset (xml_soup xml) = Some urls →
     ∃ st', _walk (S fuel) u st = Some st'
            ∧ page_urls st' = collect (page_urls st) (fallback_pages urls)
            ∧ visited st' = {[u]} ∪ visited st
            ∧ requests st' = requests st ++ [u]).
Proof.
  intros Hu Hxml Hne Hhtml Hidx Hset. cbv zeta.
  assert (∀ acts, node_actions xml = acts →
            _walk (S fuel) u st
            = for_each (do_action fuel) acts
                (fetch_sitemap_xml u (visit u st)).2) as Hwalk.
  { intros acts <-. rewrite walk_unfold, decide_False by done.
    cbv zeta. by rewrite Hxml, decide_False by done. }
  split.
  - intros childs Hchilds.
    assert (_walk (S fuel) u st
            = for_each (_walk fuel) (fallback_children childs)
                (fetch_sitemap_xml u (visit u st)).2) as Heq.
    { rewrite <- for_each_follow. apply Hwalk. unfold node_actions.
      rewrite Hhtml, Hidx, Hset, Hchilds. apply fallback_index_actions. }
    split; [done|]. intros st'. rewrite Heq.
    intros [_ Hin]%for_each_walk_visited. exact Hin.
  - intros urls Hnone Hurls. eexists. split.
    + erewrite Hwalk; [apply for_each_page|]. unfold node_actions.
      rewrite Hhtml, Hidx, Hset, Hnone, Hurls. apply fallback_urlset_actions.
    + by destruct (fold_add_page_url (fallback_pages urls)
                     (fetch_sitemap_xml u (visit u st)).2) as (-> & -> & ->).
Qed.

Lemma fallback_walks_xml_children_witness :
  ∃ st', @_walk fallback_index 2 "https://site/sitemap.xml" initial = Some st'
         ∧ "https://site/post-sitemap.xml" ∈ visited st'.
Proof.
  destruct (@fallback_walks_xml_children fallback_index 1
              "https://site/sitemap.xml"
              "<sitemapindex>pages post</sitemapindex>" initial) as [Hindex _].
  - set_solver.
  - by vm_compute.
  - done.
  - by vm_compute.
  - by vm_compute.
  - by vm_compute.
  - destruct (Hindex [Some "https://site/sitemap-pages";
                      Some "https://site/post-sitemap.xml"]) as [Heq Hin];
      [by vm_compute|].
    assert (is_Some (@_walk fallback_index 2 "https://site/sitemap.xml"
                       initial)) as [st' Hst'] by (vm_compute; eauto).
    exists st'. split; [done|]. apply (Hin st' Hst').
    apply list_elem_of_In. vm_compute. by left.
Defined.

Section order.
Context `{Site}.
Implicit Types st : Crawl.

Lemma first_seen_from_NoDup (seen l : list string) :
  NoDup l → (∀ x, x ∈ l → x ∉ seen) → first_seen_from seen l = l.
Proof.
  revert seen. induction l as [|x l IH]; intros seen Hnd Hseen; [done|].
  apply NoDup_cons in Hnd as [Hx Hnd]. simpl.
  rewrite decide_False by (apply Hseen; left). f_equal. apply IH; [done|].
  intros y Hy [->|?]%elem_of_cons; [done|].
  by apply (Hseen y); [right|].
Qed.

Lemma filter_nonempty (out : list string) :
  "" ∉ out → filter (λ u, u ≠ "") out = out.
Proof.
  induction out as [|x out IH]; intros Hne; [done|].
  apply not_elem_of_cons in Hne as [Hx Hne].
  rewrite filter_cons_True by done. by rewrite IH.
Qed.

Lemma collect_NoDup (out : list string) :
  NoDup out → "" ∉ out → collect [] out = out.
Proof.
  intros Hnd Hne. rewrite collect_first_seen. simpl.
  rewrite filter_nonempty by done.
  apply first_seen_from_NoDup; [done|]. by intros x _ ?%elem_of_nil.
Qed.

(** A call for a document that only lists child sitemaps. *)
Lemma walk_index fuel u xml childs st :
  u ∉ visited st → served !! u = Some xml → xml ≠ "" →
  node_actions xml = Follow <$> childs →
  _walk (S fuel) u st
  = for_each (_walk fuel) childs (fetch_sitemap_xml u (visit u st)).2.
Proof.
  intros Hu Hxml Hne Hacts. rewrite walk_unfold, decide_False by done.
  cbv zeta. rewrite Hxml, decide_False by done.
  by rewrite Hacts, for_each_follow.
Qed.

(** A call for a document that only lists pages. *)
Lemma walk_urlset fuel u xml pages st :
  u ∉ visited st → served !! u = Some xml → xml ≠ "" →
  node_actions xml = Page <$> pages →
  ∃ st', _walk (S fuel) u st = Some st'
         ∧ page_urls st' = collect (page_urls st) pages
         ∧ visited st' = {[u]} ∪ visited st.
Proof.
  intros Hu Hxml Hne Hacts. rewrite walk_unfold, decide_False by done.
  cbv zeta. rewrite Hxml, decide_False by done.
  rewrite Hacts, for_each_page. eexists. split; [done|].
  by destruct (fold_add_page_url pages (fetch_sitemap_xml u (visit u st)).2)
    as (-> & _ & ->).
Qed.

(** An index of two URL sets of two pages each. *)
Lemma walk_two_urlsets root xr s1 x1 s2 x2 a b c d :
  served !! root = Some xr → xr ≠ "" →
  node_actions xr = [Follow s1; Follow s2] →
  served !! s1 = Some x1 → x1 ≠ "" → node_actions x1 = [Page a; Page b] →
  served !! s2 = Some x2 → x2 ≠ "" → node_actions x2 = [Page c; Page d] →
  s1 ≠ s2 →
  ∃ st, _walk 2 root initial = Some st
        ∧ page_urls st = collect [] [a; b; c; d].
Proof.
  intros Hr Hxr Har H1 Hx1 Ha1 H2 Hx2 Ha2 Hs.
  assert (root ≠ s1) as Hr1 by (intros ->; congruence).
  assert (root ≠ s2) as Hr2 by (intros ->; congruence).
  rewrite (walk_index 1 root xr [s1; s2]); [|set_solver|done..].
  set (st1 := (fetch_sitemap_xml root (visit root initial)).2).
  rewrite !for_each_cons.
  destruct (walk_urlset 0 s1 x1 [a; b] st1) as (st2 & -> & Hp2 & Hv2);
    [simpl; set_solver|done..|].
  cbn [mbind option_bind]. rewrite for_each_cons.
  destruct (walk_urlset 0 s2 x2 [c; d] st2) as (st3 & -> & Hp3 & Hv3);
    [rewrite Hv2; simpl; set_solver|done..|].
  exists st3. split; [done|].
  by rewrite Hp3, Hp2, <- collect_app.
Qed.
End order.

(** C8: the resolver returns the page URLs of the depth-first, document-order
    listing of the site in the order of their first occurrence, each once,
    empty ones left out, and nothing reorders them; for an index that
    references two different URL sets with two pages each, four different
    page URLs in all, the result is these four in that order. *)
Theorem resolver_first_seen_order `{Site} (root_url : string) :
  (∃ out seen urls,
      listing ∅ root_url out seen
      ∧ extract_urls_from_sitemap root_url = Some urls
      ∧ urls = first_seen (filter (λ u, u ≠ "") out)
      ∧ NoDup urls)
  ∧ ∀ xr s1 x1 s2 x2 a b c d,
      served !! root_url = Some xr → xr ≠ "" →
      node_actions xr = [Follow s1; Follow s2] →
      served !! s1 = Some x1 → x1 ≠ "" → node_actions x1 = [Page a; Page b] →
      served !! s2 = Some x2 → x2 ≠ "" → node_actions x2 = [Page c; Page d] →
      s1 ≠ s2 → NoDup [a; b; c; d] → "" ∉ [a; b; c; d] →
      extract_urls_from_sitemap root_url = Some [a; b; c; d].
Proof.
  destruct (crawl_total root_url) as (st & Hst & Hfuel).
  unfold extract_urls_from_sitemap. rewrite Hst. simpl. split.
  - pose proof (walk_sound _ _ _ _ Hst) as (_ & _ & out & Hl & Hp).
    simpl in Hl, Hp. rewrite collect_first_seen in Hp. simpl in Hp.
    exists out, (visited st), (page_urls st). split; [done|]. split; [done|].
    split; [done|]. rewrite Hp. apply NoDup_first_seen_from.
  - intros xr s1 x1 s2 x2 a b c d Hr Hxr Har H1 Hx1 Ha1 H2 Hx2 Ha2 Hs Hnd Hne.
    destruct (walk_two_urlsets root_url xr s1 x1 s2 x2 a b c d)
      as (st' & Hst' & Hp); [done..|].
    apply (walk_fuel_mono 2 (2 `max` S (size served))) in Hst'; [|lia].
    rewrite Hfuel in Hst' by lia. injection Hst' as ->.
    by rewrite Hp, collect_NoDup.
Qed.

Lemma resolver_first_seen_order_witness :
  @extract_urls_from_sitemap two_urlsets "https://site/sitemap_index.xml"
  = Some ["https://site/hello/"; "https://site/news/";
          "https://site/about/"; "https://site/contact/"].
Proof.
  apply (proj2 (@resolver_first_seen_order two_urlsets
                  "https://site/sitemap_index.xml")
           "<sitemapindex>post page</sitemapindex>"
           "https://site/post-sitemap.xml" "<urlset>hello news</urlset>"
           "https://site/page-sitemap.xml" "<urlset>about contact</urlset>").
  - by vm_compute.
  - done.
  - by vm_compute.
  - by vm_compute.
  - done.
  - by vm_compute.
  - by vm_compute.
  - done.
  - by vm_compute.
  - done.
  - apply (bool_decide_unpack _). by vm_compute.
  - apply (bool_decide_unpack _). by vm_compute.
Defined.

(** * Further properties of the code *)

(** ** Strings and lines *)

#[local] Arguments String.append : simpl nomatch.

Lemma append_nil_r (s : string) : s +:+ "" = s.
Proof. induction s as [|c s IH]; simpl; [done|]. by rewrite IH. Qed.

Lemma append_assoc (a b c : string) : (a +:+ b) +:+ c = a +:+ b +:+ c.
Proof. induction a as [|x a IH]; simpl; [done|]. by rewrite IH. Qed.

Lemma strip_prefix_Some pre s r : strip_prefix pre s = Some r → s = pre +:+ r.
Proof.
  revert s. induction pre as [|a pre IH]; intros [|b s]; simpl; try done.
  - by intros [= ->].
  - by intros [= ->].
  - destruct (Ascii.eqb_spec a b) as [->|]; [|done].
    by intros ->%IH.
Qed.

Lemma strip_prefix_app pre r : strip_prefix pre (pre +:+ r) = Some r.
Proof.
  induction pre as [|a pre IH]; simpl; [done|]. by rewrite Ascii.eqb_refl.
Qed.

Lemma rev_app_append (s t : string) :
  String.rev_app s t = String.rev_app s "" +:+ t.
Proof.
  revert t. induction s as [|c s IH]; intros t; simpl; [done|].
  rewrite (IH (String c t)), (IH (String c "")), append_assoc. done.
Qed.

Lemma rev_cons (c : ascii) (s : string) :
  String.rev (String c s) = String.rev s +:+ String c "".
Proof. unfold String.rev. simpl. apply rev_app_append. Qed.

Lemma rev_append (a b : string) :
  String.rev (a +:+ b) = String.rev b +:+ String.rev a.
Proof.
  induction a as [|c a IH]; simpl.
  - by rewrite append_nil_r.
  - by rewrite !rev_cons, IH, append_assoc.
Qed.

Lemma rev_involutive (s : string) : String.rev (String.rev s) = s.
Proof.
  induction s as [|c s IH]; [done|].
  by rewrite rev_cons, rev_append, IH.
Qed.

Lemma lstrip_left_clean (s : string) : left_clean (lstrip s).
Proof.
  induction s as [|c s IH]; simpl; [done|].
  destruct (isspace c) eqn:Hc; [done|]. simpl. done.
Qed.

Lemma lstrip_clean (s : string) : left_clean s → lstrip s = s.
Proof. destruct s as [|c s]; simpl; [done|]. by intros ->. Qed.

Lemma lstrip_split (s : string) :
  ∃ ws, all_space ws = true ∧ s = ws +:+ lstrip s.
Proof.
  induction s as [|c s (ws & Hws & Hs)]; [by exists ""|].
  simpl. destruct (isspace c) eqn:Hc.
  - exists (String c ws). simpl. by rewrite Hc, Hws, <- Hs.
  - by exists "".
Qed.

Lemma rstrip_left_clean (s : string) : left_clean s → left_clean (rstrip s).
Proof.
  intros Hs. unfold rstrip.
  destruct (lstrip_split (String.rev s)) as (ws & _ & Hrev).
  apply (f_equal String.rev) in Hrev.
  rewrite rev_involutive, rev_append in Hrev.
  destruct (String.rev (lstrip (String.rev s))) as [|c z]; [done|].
  rewrite Hrev in Hs. done.
Qed.

Lemma strip_left_clean (s : string) : left_clean (strip s).
Proof. apply rstrip_left_clean, lstrip_left_clean. Qed.

(** Stripping twice is stripping once. *)
Lemma strip_strip (s : string) : strip (strip s) = strip s.
Proof.
  unfold strip at 1. rewrite (lstrip_clean (strip s)) by apply strip_left_clean.
  unfold strip, rstrip. rewrite rev_involutive.
  by rewrite (lstrip_clean (lstrip _)) by apply lstrip_left_clean.
Qed.

Lemma split_newline_line (u rest : string) :
  no_newline u = true →
  split_newline (u +:+ String newline rest) = u :: split_newline rest.
Proof.
  intros Hu. induction u as [|c u IH]; simpl in *; [done|].
  apply andb_true_iff in Hu as [Hc Hu]. apply negb_true_iff in Hc.
  by rewrite Hc, IH.
Qed.

Lemma split_join_newline (lines : list string) :
  lines ≠ [] →
  Forall (λ u, no_newline u = true) lines →
  split_newline (join_newline lines +:+ String newline "") = lines ++ [""].
Proof.
  intros Hne Hlines. induction Hlines as [|u lines Hu Hlines IH]; [done|].
  destruct lines as [|u' lines].
  - simpl. by rewrite split_newline_line.
  - change (join_newline (u :: u' :: lines))
      with (u +:+ String newline "" +:+ join_newline (u' :: lines)).
    rewrite !append_assoc. simpl (String newline "" +:+ _).
    rewrite split_newline_line by done. by rewrite IH.
Qed.

(** ** The URL pattern *)

Lemma span_url_spec s :
  s = (span_url s).1 +:+ (span_url s).2
  ∧ all_url_chars (span_url s).1 = true
  ∧ ends_url (span_url s).2.
Proof.
  induction s as [|c s (IH1 & IH2 & IH3)]; simpl; [done|].
  destruct (url_char c) eqn:Hc; simpl; [|done].
  destruct (span_url s) as [run rest]. simpl in *.
  rewrite Hc, IH2, <- IH1. done.
Qed.

Lemma span_url_app run rest :
  all_url_chars run = true → ends_url rest →
  span_url (run +:+ rest) = (run, rest).
Proof.
  intros Hrun Hrest. induction run as [|c run IH]; simpl in *.
  - destruct rest as [|d rest]; simpl in *; [done|]. by rewrite Hrest.
  - apply andb_true_iff in Hrun as [-> Hrun]. by rewrite IH.
Qed.

Lemma match_tail_Some scheme r m :
  match_tail scheme r = Some m →
  ∃ run rest, m = scheme +:+ "://" +:+ run ∧ r = "://" +:+ run +:+ rest
              ∧ run ≠ "" ∧ all_url_chars run = true ∧ ends_url rest.
Proof.
  unfold match_tail. destruct (strip_prefix "://" r) as [r'|] eqn:Hr; [|done].
  apply strip_prefix_Some in Hr as ->.
  destruct (span_url_spec r') as (Hr' & Hrun & Hrest).
  destruct (decide _) as [|Hne]; [done|]. intros [= <-].
  exists (span_url r').1, (span_url r').2. by rewrite <- Hr'.
Qed.

Lemma match_tail_app scheme run rest :
  run ≠ "" → all_url_chars run = true → ends_url rest →
  match_tail scheme ("://" +:+ run +:+ rest) = Some (scheme +:+ "://" +:+ run).
Proof.
  intros Hne Hrun Hrest. unfold match_tail.
  rewrite strip_prefix_app, span_url_app by done. simpl.
  by rewrite decide_False.
Qed.

(** A match is a URL at the start of the text, and it is as long as it can
    be. *)
Lemma match_url_Some s m :
  match_url s = Some m → is_url m ∧ ∃ rest, s = m +:+ rest ∧ ends_url rest.
Proof.
  unfold match_url. destruct (strip_prefix "http" s) as [r|] eqn:Hs; [|done].
  apply strip_prefix_Some in Hs as ->.
  destruct (match r with String "s" r1 => match_tail "https" r1 | _ => None end)
    as [m'|] eqn:Hfirst.
  - intros [= <-]. destruct r as [|c r1]; [done|].
    assert (c = "s"%char ∧ match_tail "https" r1 = Some m') as [-> Ht].
    { destruct c as [[] [] [] [] [] [] [] []]; try done. }
    apply match_tail_Some in Ht as (run & rest & -> & -> & Hne & Hrun & Hrest).
    split; [exists run; eauto|]. exists rest. split; [|done].
    simpl. by rewrite ?append_assoc.
  - intros (run & rest & -> & -> & Hne & Hrun & Hrest)%match_tail_Some.
    split; [exists run; eauto|]. exists rest. split; [|done].
    simpl. by rewrite ?append_assoc.
Qed.

Lemma match_url_app u rest :
  is_url u → ends_url rest → match_url (u +:+ rest) = Some u.
Proof.
  intros (run & [->| ->] & Hne & Hrun) Hrest; unfold match_url; simpl.
  - pose proof (match_tail_app "http" run rest Hne Hrun Hrest) as Ht.
    simpl in Ht. by rewrite Ht.
  - pose proof (match_tail_app "https" run rest Hne Hrun Hrest) as Ht.
    simpl in Ht. by rewrite Ht.
Qed.

Lemma findall_from_skip m rest :
  findall_from (String.length m) (m +:+ rest) = findall_from 0 rest.
Proof. induction m as [|c m IH]; simpl; [by destruct rest|done]. Qed.

Lemma findall_url_app u rest :
  is_url u → ends_url rest → findall_url (u +:+ rest) = u :: findall_url rest.
Proof.
  intros Hu Hrest. pose proof (match_url_app u rest Hu Hrest) as Hm.
  destruct Hu as (run & Hu & _). unfold findall_url.
  destruct u as [|c u]; [by destruct Hu|].
  change (String c u +:+ rest) with (String c (u +:+ rest)) in *.
  cbn [findall_from]. rewrite Hm. f_equal. simpl.
  rewrite Nat.sub_0_r. apply findall_from_skip.
Qed.

Lemma findall_from_is_url skip s m : m ∈ findall_from skip s → is_url m.
Proof.
  revert skip. induction s as [|c s IH]; intros skip; [by intros ?%elem_of_nil|].
  cbn [findall_from]. destruct skip as [|k]; [|apply IH].
  destruct (match_url (String c s)) as [m'|] eqn:Hm; [|apply IH].
  intros [->|?]%elem_of_cons; [|by eapply IH].
  by apply match_url_Some in Hm as [? _].
Qed.

Lemma findall_url_delimiter d rest :
  url_char d = false → findall_url (String d rest) = findall_url rest.
Proof.
  intros Hd. unfold findall_url. cbn [findall_from].
  destruct (match_url (String d rest)) as [m|] eqn:Hm; [|done].
  apply match_url_Some in Hm as ((run & Hm & _) & rest' & Hs & _).
  destruct Hm as [-> | ->]; simpl in Hs; injection Hs as -> _; done.
Qed.

(** ** Properties of the URL extraction *)

Lemma findall_url_self u : is_url u → findall_url u = [u].
Proof.
  intros Hu. rewrite <- (append_nil_r u) at 1.
  by rewrite findall_url_app.
Qed.

Lemma concat_findall_urls (urls : list string) :
  Forall is_url urls → concat (map findall_url urls) = urls.
Proof.
  induction 1 as [|u urls Hu _ IH]; simpl; [done|].
  by rewrite findall_url_self, IH.
Qed.

Lemma dropna_Some (l : list string) : dropna (Some <$> l) = l.
Proof. unfold dropna. induction l as [|x l IH]; csimpl; [done|]. by rewrite IH. Qed.

Lemma extract_urls_from_df_cons
    (first_col : list (option string)) (others : list (list (option string))) :
  ∃ urls,
    extract_urls_from_df (first_col :: others) = Some urls
    ∧ NoDup urls
    ∧ (∀ u, u ∈ urls → is_url u)
    ∧ ∀ u, u ∈ urls ↔ ∃ cell, Some cell ∈ first_col ∧ u ∈ findall_url cell.
Proof.
  eexists. split; [done|].
  split; [apply NoDup_first_seen_from|].
  assert (∀ u, u ∈ first_seen (concat (map findall_url (dropna first_col)))
             ↔ ∃ cell, Some cell ∈ first_col ∧ u ∈ findall_url cell) as Hin.
  { intros u. unfold first_seen. rewrite elem_of_first_seen_from.
    rewrite list_elem_of_In, in_concat. setoid_rewrite in_map_iff.
    unfold dropna. split.
    - intros [(l & (cell & <- & Hc) & Hu) _]. exists cell.
      apply list_elem_of_In, list_elem_of_omap in Hc as (c & Hc & ->).
      split; [done|]. by apply list_elem_of_In.
    - intros (cell & Hc & Hu). split; [|by intros ?%elem_of_nil].
      exists (findall_url cell). split; [|by apply list_elem_of_In].
      exists cell. split; [done|]. apply list_elem_of_In, list_elem_of_omap.
      by exists (Some cell). }
  split; [|done]. intros u (cell & _ & Hu)%Hin. by eapply findall_from_is_url.
Qed.

(** X1: a frame without columns makes [extract_urls_from_df] fail on
    [df.columns[0]]; for any other frame it returns, reads the first column
    only, and returns pairwise different texts, each of them a whole match of
    the URL pattern found in a cell of that column. *)
Theorem extract_urls_from_df_urls
    (first_col : list (option string)) (others : list (list (option string))) :
  extract_urls_from_df [] = None
  ∧ ∃ urls,
      extract_urls_from_df (first_col :: others) = Some urls
      ∧ extract_urls_from_df [first_col] = Some urls
      ∧ NoDup urls
      ∧ (∀ u, u ∈ urls → is_url u)
      ∧ ∀ u, u ∈ urls ↔ ∃ cell, Some cell ∈ first_col ∧ u ∈ findall_url cell.
Proof.
  split; [done|].
  destruct (extract_urls_from_df_cons first_col others)
    as (urls & Hurls & Hnd & Hurl & Hin).
  exists urls. done.
Qed.

(** X2: the URLs that [extract_urls_from_df] returns, put back into a
    column, are extracted again as they are: same URLs, same order. *)
Theorem extract_urls_from_df_again
    (df : list (list (option string))) (urls : list string) :
  extract_urls_from_df df = Some urls →
  extract_urls_from_df [Some <$> urls] = Some urls.
Proof.
  intros Hdf. destruct df as [|first_col others]; [done|].
  destruct (extract_urls_from_df_cons first_col others)
    as (urls' & Hurls & Hnd & Hurl & _).
  rewrite Hurls in Hdf. injection Hdf as ->.
  unfold extract_urls_from_df. rewrite dropna_Some.
  rewrite concat_findall_urls by by apply Forall_forall.
  f_equal. apply first_seen_from_NoDup; [done|]. by intros x _ ?%elem_of_nil.
Qed.

Lemma extract_urls_from_df_again_witness :
  extract_urls_from_df [[Some "https://a.org/x, see http://b.org"; None;
                         Some "http://b.org"]]
  = Some ["https://a.org/x"; "http://b.org"]
  ∧ extract_urls_from_df [[Some "https://a.org/x"; Some "http://b.org"]]
    = Some ["https://a.org/x"; "http://b.org"].
Proof.
  split; [by vm_compute|].
  apply (extract_urls_from_df_again
           [[Some "https://a.org/x, see http://b.org"; None;
             Some "http://b.org"]]
           ["https://a.org/x"; "http://b.org"]).
  by vm_compute.
Defined.

(** X3: a text made of URLs with one separating character between them, a
    white space character or a comma, is taken apart into these URLs. *)
Theorem findall_url_separated (d : ascii) (urls : list string) :
  url_char d = false →
  Forall is_url urls →
  findall_url (String.concat (String d "") urls) = urls.
Proof.
  intros Hd. induction 1 as [|u urls Hu Hurls IH]; [done|].
  destruct urls as [|u' urls]; [by apply findall_url_self|].
  change (String.concat (String d "") (u :: u' :: urls))
    with (u +:+ String d "" +:+ String.concat (String d "") (u' :: urls)).
  change (String d "" +:+ ?s) with (String d s).
  rewrite findall_url_app by done. by rewrite findall_url_delimiter, IH.
Qed.

Lemma is_url_sample (s : string) :
  all_url_chars s = true → s ≠ "" → is_url ("https://" +:+ s).
Proof. intros Hs Hne. exists s. eauto. Qed.

Lemma findall_url_separated_witness :
  findall_url "https://a.org/x,https://b.org/y"
  = ["https://a.org/x"; "https://b.org/y"].
Proof.
  apply (findall_url_separated "," ["https://a.org/x"; "https://b.org/y"]).
  - reflexivity.
  - repeat constructor; by apply is_url_sample.
Defined.

(** ** The sniff of the document head *)


Lemma lstrip_spaces (ws s : string) :
  all_space ws = true → lstrip (ws +:+ s) = lstrip s.
Proof.
  induction ws as [|c ws IH]; simpl; [done|].
  intros [-> Hws]%andb_true_iff. by apply IH.
Qed.

Lemma substring_head (n : nat) (head tail : string) :
  String.length head = n → String.substring 0 n (head +:+ tail) = head.
Proof.
  revert n. induction head as [|c head IH]; intros n; simpl.
  - intros <-. by destruct tail.
  - intros <-. simpl. by rewrite IH.
Qed.

(** X11: the sniff that tells HTML from XML skips the white space at the
    start of the document and then reads 200 characters: what comes after
    them plays no part, so a marker that starts later is not seen. *)
Theorem is_html_reads_200_characters (ws head tail : string) :
  all_space ws = true →
  left_clean head →
  String.length head = 200 →
  is_html (ws +:+ head +:+ tail) = is_html head.
Proof.
  intros Hws Hclean Hlen. unfold is_html.
  rewrite lstrip_spaces by done.
  assert (left_clean (head +:+ tail)) as Hclean'
    by (destruct head; [done|exact Hclean]).
  rewrite !lstrip_clean by done. rewrite substring_head by done.
  pose proof (substring_head 200 head "" Hlen) as Hhead.
  rewrite append_nil_r in Hhead. by rewrite Hhead.
Qed.

Lemma is_html_reads_200_characters_witness :
  let head := string_of_list_ascii (replicate 200 "-"%char) in
  is_html ("  " +:+ head +:+ "<html><body>") = false
  ∧ is_html "  <html><body>" = true.
Proof.
  intros head. split; [|by vm_compute].
  rewrite (is_html_reads_200_characters "  " head "<html><body>").
  - by vm_compute.
  - by vm_compute.
  - by vm_compute.
  - by vm_compute.
Defined.

#[local] Arguments String.append : simpl never.

(** ** More on the aggregate *)

Lemma agg_get_Some_elem_of k e (agg : list (Key * Entry)) :
  agg_get k agg = Some e → (k, e) ∈ agg.
Proof.
  induction agg as [|[k0 e0] agg IH]; simpl; [done|].
  destruct (decide (k0 = k)) as [->|?].
  - intros [= ->]. left.
  - intros ?%IH. by right.
Qed.

Lemma merge_into_inner_text v e :
  entry_inner_text (merge_into v e) = entry_inner_text e.
Proof. unfold merge_into. by destruct (_ >? _)%Z. Qed.

Lemma merge_all_first_seen G e :
  entry_description (merge_all G e) = entry_description e
  ∧ entry_element_html (merge_all G e) = entry_element_html e
  ∧ entry_inner_text (merge_all G e) = entry_inner_text e.
Proof.
  induction G as [|w G (IH1 & IH2 & IH3)] using rev_ind; [done|].
  rewrite merge_all_snoc, merge_into_inner_text.
  destruct (merge_into_first_seen w (merge_all G e)) as [-> ->]. done.
Qed.

(** The row of a key that occurs in the input. *)
Lemma aggregate_row_of_group raw v G :
  group (key_of v) raw = v :: G →
  row_of_entry (merge_all (v :: G) (seed v)) ∈ aggregate raw.
Proof.
  intros HG. unfold aggregate. rewrite list_sort_Permutation. unfold rows_of.
  apply list_elem_of_fmap. exists (key_of v, merge_all (v :: G) (seed v)).
  split; [done|]. apply agg_get_Some_elem_of.
  by rewrite agg_get_fold_violations, HG.
Qed.

Lemma group_head raw k v G : group k raw = v :: G → key_of v = k ∧ v ∈ raw.
Proof.
  intros HG. assert (v ∈ group k raw) as Hv by (rewrite HG; left).
  unfold group in Hv. apply list_elem_of_filter in Hv. tauto.
Qed.

Lemma group_elem_of raw v : v ∈ raw → v ∈ group (key_of v) raw.
Proof. intros Hv. unfold group. by apply list_elem_of_filter. Qed.

Lemma row_urls_elem_of G e u :
  u ∈ row_urls (row_of_entry (merge_all G e))
  ↔ u ∈ entry_urls e ∨ ∃ w, w ∈ G ∧ url w = u.
Proof.
  simpl. rewrite merge_sort_Permutation, elem_of_elements, merge_all_urls.
  rewrite elem_of_union, elem_of_list_to_set, list_elem_of_fmap.
  split; intros [?|(w & ? & ?)]; eauto.
Qed.



(** X5: what a row shows of the element comes from the first violation of
    its group: description, element HTML and the whole inner text are those
    of the first violation with the row's key, and later violations of the
    group do not change them. *)
Theorem aggregate_keeps_first_seen_fields
    (raw : list RawViolation) (r : Row) :
  r ∈ aggregate raw →
  ∃ v G, group (row_key r) raw = v :: G
         ∧ row_description r = description v
         ∧ row_element_html r = element_html v
         ∧ row_inner_text r = inner_text v.
Proof.
  intros (v & G & HG & ->)%elem_of_aggregate. exists v, G. split; [done|].
  by destruct (merge_all_first_seen (v :: G) (seed v)) as (H1 & H2 & H3).
Qed.

Lemma aggregate_keeps_first_seen_fields_witness :
  let first := mkRaw "https://a/1" "minor" "first" "<img id=1>" "" "" "image-alt" "img" "" in
  let second := mkRaw "https://a/2" "critical" "second" "<img id=2>" "" "" "image-alt" "img" "" in
  ∃ r, aggregate [first; second] = [r]
       ∧ row_description r = "first" ∧ row_priority r = "critical".
Proof.
  intros first second. eexists. split; [by vm_compute|].
  destruct (aggregate_keeps_first_seen_fields [first; second]
              (row_of_entry (merge_all [first; second] (seed first))))
    as (v & G & HG & Hd & _).
  - vm_compute. left.
  - split; [|reflexivity]. vm_compute in HG. injection HG as <- _.
    exact Hd.
Defined.

Lemma first_seen_from_length {A} `{EqDecision A} (seen l : list A) :
  length (first_seen_from seen l) ≤ length l.
Proof.
  revert seen. induction l as [|x l IH]; intros seen; simpl; [done|].
  destruct (decide (x ∈ seen)); simpl.
  - etrans; [apply IH|lia].
  - specialize (IH (x :: seen)). lia.
Qed.

(** X6: the aggregate has one row for each different key of the input, and
    so at most as many rows as there are raw violations; it is empty exactly
    when there is no raw violation. *)
Theorem aggregate_one_row_per_key (raw : list RawViolation) :
  length (aggregate raw) = length (first_seen (map key_of raw))
  ∧ NoDup (map row_key (aggregate raw))
  ∧ length (aggregate raw) ≤ length raw
  ∧ (aggregate raw = [] ↔ raw = []).
Proof.
  assert (length (aggregate raw) = length (first_seen (map key_of raw))) as Hlen.
  { unfold aggregate. rewrite list_sort_Permutation.
    fold (unsorted_rows raw).
    by rewrite <- unsorted_rows_keys, length_map. }
  split; [done|]. split; [|split].
  - assert (map row_key (aggregate raw) ≡ₚ map row_key (unsorted_rows raw))
      as -> by (unfold aggregate; by rewrite list_sort_Permutation).
    rewrite unsorted_rows_keys. apply NoDup_first_seen_from.
  - rewrite Hlen. etrans; [apply first_seen_from_length|].
    by rewrite length_map.
  - split; [|by intros ->].
    intros Hnil. destruct raw as [|v raw]; [done|]. exfalso.
    assert (v ∈ v :: raw) as Hg%group_elem_of by left.
    destruct (group (key_of v) (v :: raw)) as [|v0 G] eqn:HG;
      [by apply elem_of_nil in Hg|].
    destruct (group_head _ _ _ _ HG) as [Hk0 _]. rewrite <- Hk0 in HG.
    apply aggregate_row_of_group in HG. rewrite Hnil in HG.
    by apply elem_of_nil in HG.
Qed.

(** X7: violations that are already in the input change nothing when they
    come again at its end. *)
Theorem aggregate_ignores_repeats (raw again : list RawViolation) :
  (∀ v, v ∈ again → v ∈ raw) →
  aggregate (raw ++ again) = aggregate raw.
Proof.
  intros Hagain. unfold aggregate, fold_violations. rewrite fold_left_app.
  rewrite fold_left_absorbed; [done|].
  apply Forall_forall. intros v Hv%Hagain.
  pose proof (fold_left_absorbs raw []) as Hall.
  rewrite Forall_forall in Hall. by apply Hall.
Qed.

Lemma aggregate_ignores_repeats_witness :
  aggregate ([on_div; on_span] ++ [on_span; on_span; on_div])
  = aggregate [on_div; on_span].
Proof.
  apply aggregate_ignores_repeats.
  intros v Hv. apply list_elem_of_In. apply list_elem_of_In in Hv.
  simpl in *. tauto.
Defined.

(** ** The saved list of URLs *)

Lemma elem_of_fold_row_urls (rows : list Row) (acc : gset string) u :
  u ∈ fold_left (λ acc r, acc ∪ list_to_set (row_urls r)) rows acc
  ↔ u ∈ acc ∨ ∃ r, r ∈ rows ∧ u ∈ row_urls r.
Proof.
  revert acc. induction rows as [|r rows IH]; intros acc; simpl.
  - split; [by left|]. intros [?|(r & ?%elem_of_nil & _)]; done.
  - rewrite IH, elem_of_union, elem_of_list_to_set. split.
    + intros [[?|?]|(r' & ? & ?)]; [by left|right..].
      * exists r. split; [left|done].
      * exists r'. split; [by right|done].
    + intros [?|(r' & [->|?]%elem_of_cons & ?)]; [by left; left|by left; right|].
      right. by exists r'.
Qed.

Lemma elem_of_fold_raw_urls (raw : list RawViolation) (acc : gset string) u :
  u ∈ fold_left (λ acc v, if decide (url v = "") then acc else {[url v]} ∪ acc)
        raw acc
  ↔ u ∈ acc ∨ (u ≠ "" ∧ ∃ v, v ∈ raw ∧ url v = u).
Proof.
  revert acc. induction raw as [|v raw IH]; intros acc; simpl.
  - split; [by left|]. intros [?|(_ & v & ?%elem_of_nil & _)]; done.
  - rewrite IH. destruct (decide (url v = "")) as [Hv|Hv].
    + split.
      * intros [?|(? & v' & ? & ?)]; [by left|right].
        split; [done|]. exists v'. split; [by right|done].
      * intros [?|(Hu & v' & [->|?]%elem_of_cons & Hv')]; [by left|congruence|].
        right. split; [done|]. by exists v'.
    + rewrite elem_of_union, elem_of_singleton. split.
      * intros [[->|?]|(? & v' & ? & ?)]; [right|by left|right].
        -- split; [done|]. exists v. split; [left|done].
        -- split; [done|]. exists v'. split; [by right|done].
      * intros [?|(Hu & v' & [->|?]%elem_of_cons & Hv')];
          [by left; right|by left; left|].
        right. split; [done|]. by exists v'.
Qed.

(** X8: [save_scan] writes nothing when there are neither rows nor raw
    violations, or when the file dialog is closed. Once the aggregate has
    been built from raw violations, the URL list it writes is sorted, has no
    duplicates, and lists the URLs of the raw violations, the empty one
    included when a violation has it. *)
Theorem save_scan_urls (now file : string) (self : App) :
  (results self = [] → raw_results self = [] → save_scan now file self = None)
  ∧ save_scan now "" self = None
  ∧ (file ≠ "" → raw_results self ≠ [] →
     ∃ data,
       save_scan now file (build_aggregated_results self) = Some data
       ∧ saved_raw_results data = raw_results self
       ∧ saved_results data = aggregate (raw_results self)
       ∧ Sorted String.le (metadata_urls data)
       ∧ NoDup (metadata_urls data)
       ∧ ∀ u, u ∈ metadata_urls data
              ↔ ∃ v, v ∈ raw_results self ∧ url v = u).
Proof.
  split; [|split].
  - intros Hres Hraw. unfold save_scan. by rewrite decide_True.
  - unfold save_scan. destruct (decide _); [done|]. by rewrite decide_True.
  - intros Hfile Hraw. unfold save_scan. simpl.
    rewrite decide_False by tauto. rewrite decide_False by done.
    eexists. split; [done|]. simpl. split; [done|]. split; [done|].
    split; [apply Sorted_merge_sort, _|].
    split; [rewrite merge_sort_Permutation; apply NoDup_elements|].
    intros u. rewrite merge_sort_Permutation, elem_of_elements.
    unfold all_urls. simpl.
    rewrite elem_of_fold_raw_urls, elem_of_fold_row_urls. split.
    + intros [[?%elem_of_empty|(r & Hr & Hu)]|(_ & Hv)]; [done| |done].
      apply elem_of_aggregate in Hr as (v0 & G & HG & ->).
      apply row_urls_elem_of in Hu as [?%elem_of_empty|(w & Hw & Hu)]; [done|].
      exists w. split; [|done]. rewrite <- HG in Hw.
      unfold group in Hw. by apply list_elem_of_filter in Hw as [_ ?].
    + intros (v & Hv & <-). left. right.
      pose proof (group_elem_of _ v Hv) as Hg.
      destruct (group (key_of v) (raw_results self)) as [|v0 G] eqn:HG;
        [by apply elem_of_nil in Hg|].
      destruct (group_head _ _ _ _ HG) as [Hk0 _]. rewrite <- Hk0 in HG.
      exists (row_of_entry (merge_all (v0 :: G) (seed v0))).
      split; [by apply aggregate_row_of_group|].
      apply row_urls_elem_of. right. eauto.
Qed.

Lemma save_scan_urls_witness :
  ∃ data,
    save_scan "2025-01-01 10:00" "scan.json"
      (build_aggregated_results
         (mkApp [on_div; on_span] [] false false 0 "")) = Some data
    ∧ metadata_urls data = ["https://a/"].
Proof.
  destruct (save_scan_urls "2025-01-01 10:00" "scan.json"
              (mkApp [on_div; on_span] [] false false 0 ""))
    as (_ & _ & Hsave).
  destruct Hsave as (data & Hdata & _); [done|done|].
  exists data. split; [exact Hdata|].
  vm_compute in Hdata. by injection Hdata as <-.
Defined.

(** ** More on the resolver *)

Section clean.
Context `{Site}.
Implicit Types st : Crawl.

Lemma node_actions_stripped xml a :
  a ∈ node_actions xml →
  match a with
  | Page p => ∃ t, p = strip t
  | Follow child => ∃ t, child = strip t
  end.
Proof.
  unfold node_actions. destruct (is_html xml).
  { destruct (html_rows xml) as [rows|]; [|by intros ?%elem_of_nil].
    intros ([a'|] & _ & Ha)%list_elem_of_omap; [|done].
    simpl in Ha. destruct (decide _); [done|].
    destruct (endswith _ _); injection Ha as <-; eauto. }
  destruct (try_read_xml xml "//sitemap" ≫= loc_column) as [col|].
  { intros (t & _ & Ha)%list_elem_of_omap. simpl in Ha.
    destruct (decide _); [done|]. injection Ha as <-. eauto. }
  destruct (try_read_xml xml "//url" ≫= loc_column) as [col|].
  { intros (t & _ & Ha)%list_elem_of_omap. injection Ha as <-. eauto. }
  destruct (sitemapindex (xml_soup xml)) as [childs|].
  { intros ([t|] & _ & Ha)%list_elem_of_omap; [|done].
    destruct (decide _); [done|]. simpl in Ha.
    destruct (endswith _ _); [|done]. injection Ha as <-. eauto. }
  destruct (urlset (xml_soup xml)) as [urls|]; [|by intros ?%elem_of_nil].
  intros ([t|] & _ & Ha)%list_elem_of_omap; [|done].
  destruct (decide _); [done|]. injection Ha as <-. eauto.
Qed.

Lemma add_page_url_clean t st :
  pages_clean st → pages_clean (add_page_url (strip t) st).
Proof.
  intros Hst. unfold add_page_url. destruct (decide _) as [[Hne _]|]; [|done].
  intros u. simpl. intros [?|Hu%list_elem_of_singleton]%elem_of_app; [eauto|].
  subst u. split; [done|apply strip_strip].
Qed.

Lemma for_each_clean fuel :
  (∀ u st st', pages_clean st → _walk fuel u st = Some st' → pages_clean st') →
  ∀ acts st st',
    (∀ p, Page p ∈ acts → ∃ t, p = strip t) →
    pages_clean st →
    for_each (do_action fuel) acts st = Some st' → pages_clean st'.
Proof.
  intros IH acts. induction acts as [|a acts IHacts]; intros st st' Hacts Hst.
  - by intros [= <-].
  - rewrite for_each_cons.
    destruct (do_action fuel a st) as [st1|] eqn:Ha; [|done]. simpl.
    apply IHacts; [intros p Hp; apply Hacts; by right|].
    destruct a as [child|p]; simpl in Ha.
    + by eapply IH.
    + injection Ha as <-. destruct (Hacts p) as [t ->]; [left|].
      by apply add_page_url_clean.
Qed.

Lemma walk_clean fuel u st st' :
  pages_clean st → _walk fuel u st = Some st' → pages_clean st'.
Proof.
  revert u st st'. induction fuel as [|fuel IH]; intros u st st' Hst; [done|].
  rewrite walk_unfold. destruct (decide _); [by intros [= <-]|]. cbv zeta.
  destruct (served !! u) as [xml|]; [|by intros [= <-]].
  destruct (decide _); [by intros [= <-]|].
  apply (for_each_clean fuel IH); [|done].
  intros p Hp. by apply node_actions_stripped in Hp.
Qed.

Lemma crawl_clean root st : crawl root = Some st → pages_clean st.
Proof. apply walk_clean. by intros u ?%elem_of_nil. Qed.
End clean.

(** X9: every page URL that the resolver returns is stripped of white space
    at both ends and is not empty. *)
Theorem resolver_urls_are_stripped `{Site} (root_url : string) :
  ∃ urls, extract_urls_from_sitemap root_url = Some urls
          ∧ ∀ u, u ∈ urls → u ≠ "" ∧ strip u = u.
Proof.
  destruct (crawl_total root_url) as (st & Hst & _).
  exists (page_urls st). unfold extract_urls_from_sitemap. rewrite Hst.
  split; [done|]. by apply (crawl_clean root_url).
Qed.

Section unserved.
Context `{Site}.
Implicit Types st : Crawl.

Lemma same_but_unserved_refl st : same_but_unserved st st.
Proof. by split. Qed.







End unserved.



(** ** Runs of the scan loop under any clicks *)

Section any_clicks.
Context `{Scanner}.
Implicit Types self : App.

Lemma interface_fields clicks i self :
  raw_results (interface clicks i self) = raw_results self
  ∧ results (interface clicks i self) = results self
  ∧ is_scanning (interface clicks i self) = is_scanning self.
Proof.
  unfold interface, cancel_scan.
  destruct (clicks i); [|done]. by destruct (is_scanning self) eqn:Hs; simpl.
Qed.

Lemma scan_loop_prefix clicks i urls self :
  ∃ k, k ≤ length urls
       ∧ raw_results (scan_loop clicks i urls self)
         = raw_results self ++ concat (map run_axe_scan (take k urls))
       ∧ (cancel_requested (scan_loop clicks i urls self) = false →
          k = length urls).
Proof.
  revert i self. induction urls as [|u urls IH]; intros i self.
  - exists 0. simpl. by rewrite app_nil_r.
  - simpl. destruct (cancel_requested self) eqn:Hc.
    + exists 0. simpl. rewrite app_nil_r. split; [lia|]. split; [done|].
      congruence.
    + set (self1 := interface clicks i _).
      destruct (IH (S i) self1) as (k & Hk & Hraw & Hall).
      exists (S k). split; [lia|]. split; [|intros ?%Hall; lia].
      rewrite Hraw. subst self1.
      destruct (interface_fields clicks i
                  (record_scan (run_axe_scan u) i
                     (set_status ("Scanning " +:+ u) self))) as (-> & _).
      simpl. by rewrite <- app_assoc.
Qed.
End any_clicks.

(** X12: whatever clicks the interface handles and whenever, a run scans the
    URLs of a beginning of the queue, in order, and keeps what was recorded
    before, so that every raw violation it adds carries a URL of the queue; it
    ends with the scanning state left, the aggregate rebuilt from the raw
    results, and one of the two closing status texts; when that text is
    "Scan complete." the whole queue was scanned. *)
Theorem run_scan_thread_scans_a_prefix `{Scanner}
    (clicks : nat → bool) (urls : list string) (self : App) :
  let final := run_scan_thread clicks urls self in
  ∃ k, k ≤ length urls
       ∧ raw_results final
         = raw_results self ++ concat (map run_axe_scan (take k urls))
       ∧ (∀ v, v ∈ raw_results final → v ∈ raw_results self ∨ url v ∈ urls)
       ∧ results final = aggregate (raw_results final)
       ∧ is_scanning final = false
       ∧ (status_label final = "Scan complete." ∧ k = length urls
          ∨ status_label final = "Scan cancelled.").
Proof.
  cbv zeta. unfold run_scan_thread.
  destruct (scan_loop_prefix clicks 1 urls (interface clicks 0 self))
    as (k & Hk & Hraw & Hall).
  destruct (interface_fields clicks 0 self) as (Hraw0 & _).
  rewrite Hraw0 in Hraw. exists k. split; [done|].
  assert (∀ v, v ∈ raw_results self
                     ++ concat (map run_axe_scan (take k urls)) →
               v ∈ raw_results self ∨ url v ∈ urls) as Hurl.
  { intros v [?|Hv]%elem_of_app; [by left|right].
    apply list_elem_of_In, in_concat in Hv as (l & Hl & Hv).
    apply in_map_iff in Hl as (u & <- & Hu).
    apply list_elem_of_In in Hv, Hu. rewrite (run_axe_scan_url u v Hv).
    by apply (subseteq_take k urls). }
  destruct (cancel_requested (scan_loop clicks 1 urls _)) eqn:Hc;
    read_fields; rewrite Hraw; repeat split; auto.
Qed.

(** ** Starting a scan *)

Lemma launch_outcome urls w w' o :
  launch urls w = (w', o) →
  match o with
  | Nothing => False
  | Dialog _ _ => urls = [] ∧ w' = w
  | Thread urls' =>
      urls' = urls ∧ urls ≠ []
      ∧ raw_results (window_app w') = raw_results (window_app w)
      ∧ results (window_app w') = results (window_app w)
      ∧ is_scanning (window_app w') = true
      ∧ cancel_requested (window_app w') = false
      ∧ progress_value (window_app w') = 0
      ∧ url_text w' = url_text w
      ∧ loaded_csv_urls w' = loaded_csv_urls w
      ∧ mode_var w' = mode_var w
  end.
Proof.
  unfold launch. destruct (decide (urls = [])); intros [= <- <-]; by simpl.
Qed.

Lemma start_scan_outcome w w' o :
  start_scan w = (w', o) →
  match o with
  | Nothing => is_scanning (window_app w) = true ∧ w' = w
  | Dialog _ _ =>
      is_scanning (window_app w) = false
      ∧ is_scanning (window_app w') = false
      ∧ raw_results (window_app w') = []
      ∧ results (window_app w') = []
  | Thread urls =>
      urls ≠ []
      ∧ is_scanning (window_app w) = false
      ∧ is_scanning (window_app w') = true
      ∧ cancel_requested (window_app w') = false
      ∧ raw_results (window_app w') = []
      ∧ results (window_app w') = []
      ∧ progress_value (window_app w') = 0
  end.
Proof.
  unfold start_scan. destruct (is_scanning (window_app w)) eqn:Hs.
  { by intros [= <- <-]. }
  set (w0 := set_app (clear_results (window_app w)) w).
  assert (∀ urls, launch urls w0 = (w', o) →
            match o with
            | Nothing => False
            | Dialog _ _ =>
                is_scanning (window_app w') = false
                ∧ raw_results (window_app w') = []
                ∧ results (window_app w') = []
            | Thread urls =>
                urls ≠ []
                ∧ is_scanning (window_app w') = true
                ∧ cancel_requested (window_app w') = false
                ∧ raw_results (window_app w') = []
                ∧ results (window_app w') = []
                ∧ progress_value (window_app w') = 0
            end) as Hlaunch.
  { intros urls Hl%launch_outcome. destruct o as [| |urls']; [done| |].
    - destruct Hl as [_ ->]. by simpl.
    - destruct Hl as (-> & ? & -> & -> & ? & ? & ? & _). by simpl. }
  cbv zeta. fold w0.
  match goal with
  | |- _ → ?G => assert (∀ urls, launch urls w0 = (w', o) → G) as launch_ok
  end.
  { intros urls Hl%Hlaunch. destruct o; [done|tauto|tauto]. }
  destruct (decide (mode_var w0 = "Manual")); [apply launch_ok|].
  destruct (decide (mode_var w0 = "Sitemap")).
  { destruct (decide (read_urls (url_text w0) = [])); [|apply launch_ok].
    intros [= <- <-]. by simpl. }
  destruct (decide (mode_var w0 = "CSV File")); apply launch_ok.
Qed.

(** X13: [start_scan] does nothing while a scan runs. Otherwise it empties
    the raw results and the rows before it looks for URLs, so that they are
    gone also when it finds none and only shows an error; and when it starts
    the worker it does so on a list that is not empty, with the cancel flag
    down, the scanning state entered and the progress at zero. *)
Theorem start_scan_guards (w w' : Window) (o : Outcome) :
  start_scan w = (w', o) →
  match o with
  | Nothing => is_scanning (window_app w) = true ∧ w' = w
  | Dialog _ _ =>
      is_scanning (window_app w) = false
      ∧ is_scanning (window_app w') = false
      ∧ raw_results (window_app w') = []
      ∧ results (window_app w') = []
  | Thread urls =>
      urls ≠ []
      ∧ is_scanning (window_app w) = false
      ∧ is_scanning (window_app w') = true
      ∧ cancel_requested (window_app w') = false
      ∧ raw_results (window_app w') = []
      ∧ results (window_app w') = []
      ∧ progress_value (window_app w') = 0
  end.
Proof. apply start_scan_outcome. Qed.

Lemma start_scan_guards_witness :
  let w := set_app (mkApp [on_div] (aggregate [on_div]) false true 1
                      "Scan cancelled.") blank in
  ∃ w' title message,
    start_scan w = (w', Dialog title message)
    ∧ raw_results (window_app w') = [] ∧ results (window_app w') = [].
Proof.
  intros w.
  destruct (start_scan w) as [w' o] eqn:Hstart.
  pose proof (start_scan_guards w w' o Hstart) as Hguard.
  vm_compute in Hstart. injection Hstart as <- <-.
  destruct Hguard as (_ & _ & Hraw & Hres).
  eexists _, _, _. split; [reflexivity|]. split; [exact Hraw|exact Hres].
Defined.

(** X14: a scan that [start_scan] starts and that no click interrupts leaves
    the results of its own URLs only, whatever the window held before (old
    results, a cancel flag left up by an earlier run); when it has ended, a
    click on Cancel changes nothing and the next [start_scan] is not
    ignored. *)
Theorem start_then_run `{Scanner}
    (clicks : nat → bool) (w w1 : Window) (urls : list string) :
  start_scan w = (w1, Thread urls) →
  (∀ j, j ≤ length urls → clicks j = false) →
  let final := run_scan_thread clicks urls (window_app w1) in
  raw_results final = concat (map run_axe_scan urls)
  ∧ results final = aggregate (raw_results final)
  ∧ status_label final = "Scan complete."
  ∧ progress_value final = length urls
  ∧ is_scanning final = false
  ∧ cancel_scan final = final
  ∧ (start_scan (set_app final w1)).2 ≠ Nothing.
Proof.
  intros (Hne & _ & Hs & Hc & Hraw & _)%start_scan_outcome Hq.
  destruct (run_scan_thread_complete clicks urls (window_app w1))
    as (Hraw' & Hst & Hres & Hsc & Hpv); [done..|].
  cbv zeta in *. rewrite Hraw in Hraw'. simpl in Hraw'.
  split; [done|]. split; [done|]. split; [done|].
  split; [by destruct urls|]. split; [done|].
  split; [unfold cancel_scan; by rewrite Hsc|].
  destruct (start_scan (set_app _ w1)) as [w2 o] eqn:Hstart.
  apply start_scan_outcome in Hstart. simpl. intros ->.
  destruct Hstart as [Hscan _]. simpl in Hscan. congruence.
Qed.

Lemma start_then_run_witness :
  let w := mkWindow (mkApp [on_div] [] false true 3 "Scan cancelled.")
             "CSV File" "" (mkText "" false) sample_queue in
  let final :=
    @run_scan_thread sample_scanner (λ _, false) sample_queue
      (window_app (start_scan w).1) in
  url <$> raw_results final = sample_queue
  ∧ status_label final = "Scan complete.".
Proof.
  intros w final.
  destruct (@start_then_run sample_scanner (λ _, false) w (start_scan w).1
              sample_queue) as (Hraw & _ & Hst & _).
  - by vm_compute.
  - reflexivity.
  - split; [|exact Hst]. unfold final. by rewrite Hraw.
Defined.

(** ** From a loaded list to the scan *)

Lemma show_urls_fields urls own_mode w :
  text_content (url_text (show_urls urls own_mode w)) = join_newline urls
  ∧ text_normal (url_text (show_urls urls own_mode w))
    = negb (bool_decide (mode_var w = own_mode))
  ∧ window_app (show_urls urls own_mode w) = window_app w
  ∧ mode_var (show_urls urls own_mode w) = mode_var w
  ∧ loaded_csv_urls (show_urls urls own_mode w) = loaded_csv_urls w.
Proof.
  unfold show_urls, text_insert, text_delete, text_config. simpl.
  rewrite append_nil_r.
  destruct (decide (mode_var w = own_mode));
    [rewrite bool_decide_eq_true_2 by done
    |rewrite bool_decide_eq_false_2 by done]; done.
Qed.

Lemma start_scan_csv w :
  is_scanning (window_app w) = false →
  mode_var w = "CSV File" →
  loaded_csv_urls w ≠ [] →
  ∃ w2, start_scan w = (w2, Thread (loaded_csv_urls w)).
Proof.
  intros Hs Hmode Hne. unfold start_scan. rewrite Hs. cbv zeta.
  change (mode_var (set_app _ w)) with (mode_var w). rewrite Hmode.
  rewrite !decide_False by done. rewrite decide_True by done.
  change (loaded_csv_urls (set_app _ w)) with (loaded_csv_urls w).
  unfold launch. rewrite decide_False by done. eauto.
Qed.

Lemma start_scan_sitemap w :
  is_scanning (window_app w) = false →
  mode_var w = "Sitemap" →
  read_urls (url_text w) ≠ [] →
  ∃ w2, start_scan w = (w2, Thread (read_urls (url_text w))).
Proof.
  intros Hs Hmode Hne. unfold start_scan. rewrite Hs. cbv zeta.
  change (mode_var (set_app _ w)) with (mode_var w). rewrite Hmode.
  rewrite decide_False by done. rewrite decide_True by done.
  change (url_text (set_app _ w)) with (url_text w).
  rewrite decide_False by done.
  unfold launch. rewrite decide_False by done. eauto.
Qed.

(** X15: in CSV mode, a frame in which [load_csv_file] finds URLs makes the
    next [start_scan] start the worker on exactly these URLs, which are
    pairwise different whole matches of the URL pattern; a frame in which it
    finds none leaves the window as it was, the list loaded before
    included. *)
Theorem load_csv_file_then_start
    (df : list (list (option string))) (w w1 : Window) (o : Outcome) :
  mode_var w = "CSV File" →
  is_scanning (window_app w) = false →
  load_csv_file (Frame df) w = Some (w1, o) →
  (o = Nothing
   ∧ ∃ urls w2,
       extract_urls_from_df df = Some urls
       ∧ start_scan w1 = (w2, Thread urls)
       ∧ NoDup urls ∧ ∀ u, u ∈ urls → is_url u)
  ∨ (extract_urls_from_df df = Some [] ∧ w1 = w
     ∧ o = Dialog "Error" "No URLs detected in CSV.").
Proof.
  intros Hmode Hs. unfold load_csv_file.
  destruct df as [|first_col others]; [done|].
  destruct (extract_urls_from_df_cons first_col others)
    as (urls & Hurls & Hnd & Hurl & _).
  rewrite Hurls. destruct (decide (urls = [])) as [->|Hne].
  { intros [= <- <-]. by right. }
  intros [= <- <-]. left. split; [done|].
  destruct (show_urls_fields urls "CSV File" (set_loaded_csv_urls urls w))
    as (_ & _ & Happ & Hm & Hl).
  change (window_app (set_loaded_csv_urls urls w)) with (window_app w) in Happ.
  change (mode_var (set_loaded_csv_urls urls w)) with (mode_var w) in Hm.
  change (loaded_csv_urls (set_loaded_csv_urls urls w)) with urls in Hl.
  set (w1 := show_urls urls "CSV File" (set_loaded_csv_urls urls w)) in *.
  destruct (start_scan_csv w1) as [w2 Hstart]; [congruence..|].
  rewrite Hl in Hstart. by exists urls, w2.
Qed.

Lemma load_csv_file_then_start_witness :
  let w := mkWindow (mkApp [] [] false false 0 "") "CSV File" ""
             (mkText "" false) [] in
  let df := [[Some "https://a.org/x, https://b.org/y"; None];
             [Some "https://ignored.org"]] in
  ∃ w1 w2, load_csv_file (Frame df) w = Some (w1, Nothing)
           ∧ start_scan w1 = (w2, Thread ["https://a.org/x"; "https://b.org/y"]).
Proof.
  intros w df.
  destruct (load_csv_file (Frame df) w) as [[w1 o]|] eqn:Hload;
    [|by vm_compute in Hload].
  destruct (load_csv_file_then_start df w w1 o)
    as [(-> & urls & w2 & Hurls & Hstart & _)|(Hurls & _)].
  - reflexivity.
  - reflexivity.
  - exact Hload.
  - exists w1, w2. split; [reflexivity|].
    vm_compute in Hurls. injection Hurls as <-. exact Hstart.
  - by vm_compute in Hurls.
Defined.

Lemma read_urls_shown (urls : list string) (normal : bool) :
  urls ≠ [] →
  Forall (λ u, no_newline u = true) urls →
  (∀ u, u ∈ urls → u ≠ "" ∧ strip u = u) →
  read_urls (mkText (join_newline urls) normal) = urls.
Proof.
  intros Hne Hlines Hclean. unfold read_urls, text_get. simpl.
  rewrite split_join_newline by done. rewrite omap_app. simpl.
  rewrite app_nil_r. clear Hne Hlines.
  induction urls as [|u urls IH]; [done|]. csimpl.
  destruct (Hclean u) as [Hu ->]; [left|].
  rewrite decide_False by done. f_equal. apply IH.
  intros u' Hu'. apply Hclean. by right.
Qed.

(** X16: in sitemap mode, when [load_sitemap] resolves page URLs of which
    none contains a newline, it shows them in the text area, read-only, and
    the next [start_scan] reads back from the text area exactly the resolved
    list and starts the worker on it. When it resolves none, the window stays
    as it was. *)
Theorem load_sitemap_then_start `{Site} (w : Window) (urls : list string) :
  mode_var w = "Sitemap" →
  is_scanning (window_app w) = false →
  strip (sitemap_entry w) ≠ "" →
  extract_urls_from_sitemap (strip (sitemap_entry w)) = Some urls →
  Forall (λ u, no_newline u = true) urls →
  (urls = [] → ∃ title message, load_sitemap w = Some (w, Dialog title message))
  ∧ (urls ≠ [] →
     ∃ w1 w2,
       load_sitemap w = Some (w1, Nothing)
       ∧ url_text w1 = mkText (join_newline urls) false
       ∧ start_scan w1 = (w2, Thread urls)).
Proof.
  intros Hmode Hs Hroot Hurls Hlines. unfold load_sitemap.
  rewrite decide_False by done. rewrite Hurls. split.
  { intros ->. rewrite decide_True by done. eauto. }
  intros Hne. rewrite decide_False by done.
  destruct (show_urls_fields urls "Sitemap" w) as (Hc & Hn & Happ & Hm & _).
  set (w1 := show_urls urls "Sitemap" w) in *.
  rewrite bool_decide_eq_true_2 in Hn by done.
  change (negb true) with false in Hn.
  assert (url_text w1 = mkText (join_newline urls) false) as Htext.
  { revert Hc Hn. destruct (url_text w1) as [c n]. simpl. by intros -> ->. }
  assert (∀ u, u ∈ urls → u ≠ "" ∧ strip u = u) as Hclean.
  { destruct (crawl_total (strip (sitemap_entry w))) as (st & Hst & _).
    unfold extract_urls_from_sitemap in Hurls. rewrite Hst in Hurls.
    injection Hurls as <-. by apply (crawl_clean _ _ Hst). }
  assert (read_urls (url_text w1) = urls) as Hread
    by (rewrite Htext; by apply read_urls_shown).
  destruct (start_scan_sitemap w1) as [w2 Hstart]; [congruence..|].
  rewrite Hread in Hstart. by exists w1, w2.
Qed.

Lemma load_sitemap_then_start_witness :
  let w := mkWindow (mkApp [] [] false false 0 "") "Sitemap"
             " https://site/sitemap_index.xml " (mkText "" false) [] in
  ∃ w1 w2,
    @load_sitemap two_urlsets w = Some (w1, Nothing)
    ∧ start_scan w1
      = (w2, Thread ["https://site/hello/"; "https://site/news/";
                     "https://site/about/"; "https://site/contact/"]).
Proof.
  intros w.
  destruct (@load_sitemap_then_start two_urlsets w
              ["https://site/hello/"; "https://site/news/";
               "https://site/about/"; "https://site/contact/"])
    as [_ Hload].
  - reflexivity.
  - reflexivity.
  - by vm_compute.
  - by vm_compute.
  - repeat constructor.
  - destruct Hload as (w1 & w2 & Hl & _ & Hstart); [discriminate|].
    exists w1, w2. split; [exact Hl|exact Hstart].
Defined.

(** ** The aggregate of a reordered input *)

Lemma group_Permutation k (raw raw' : list RawViolation) :
  raw ≡ₚ raw' → group k raw ≡ₚ group k raw'.
Proof. intros Hp. unfold group. by rewrite Hp. Qed.

(** The rank of the priority that a group ends with is an upper bound of the
    ranks in the group that one of its members reaches. *)
Lemma merge_all_rank v G :
  let p := entry_priority (merge_all (v :: G) (seed v)) in
  Forall (λ w, (rank (priority w) ≤ rank p)%Z) (v :: G)
  ∧ ∃ w, w ∈ v :: G ∧ priority w = p.
Proof.
  destruct (merge_all_priority (v :: G) (seed v)) as (_ & Hall & Hwho).
  cbv zeta in *. split; [done|].
  destruct Hwho as [->|(G1 & w & G2 & Hsplit & -> & _)].
  - exists v. split; [left|done].
  - exists w. split; [|done]. rewrite Hsplit. apply elem_of_app. right. left.
Qed.

Lemma aggregate_same_content raw raw' r :
  raw ≡ₚ raw' →
  r ∈ aggregate raw →
  ∃ r', r' ∈ aggregate raw'
        ∧ row_key r' = row_key r
        ∧ row_urls r' = row_urls r
        ∧ row_url_count r' = row_url_count r
        ∧ rank (row_priority r') = rank (row_priority r).
Proof.
  intros Hp (v & G & HG & ->)%elem_of_aggregate.
  set (k := row_key (row_of_entry (merge_all (v :: G) (seed v)))) in *.
  pose proof (group_Permutation k _ _ Hp) as HGp. rewrite HG in HGp.
  destruct (group k raw') as [|v' G'] eqn:HG';
    [by apply Permutation_nil_r in HGp|].
  destruct (group_head _ _ _ _ HG') as [Hk' _].
  exists (row_of_entry (merge_all (v' :: G') (seed v'))).
  split; [apply aggregate_row_of_group; by rewrite Hk'|].
  assert (entry_urls (merge_all (v' :: G') (seed v'))
          = entry_urls (merge_all (v :: G) (seed v))) as Hurls.
  { rewrite !merge_all_urls. f_equal. apply set_eq. intros u.
    rewrite !elem_of_list_to_set, !list_elem_of_In, !in_map_iff.
    setoid_rewrite <- list_elem_of_In. by setoid_rewrite HGp. }
  split; [|split; [|split]].
  - change (row_key (row_of_entry ?e)) with (entry_key e).
    rewrite merge_all_key. exact Hk'.
  - unfold row_of_entry. cbn [row_urls]. by rewrite Hurls.
  - unfold row_of_entry. cbn [row_url_count]. by rewrite Hurls.
  - change (row_priority (row_of_entry ?e)) with (entry_priority e).
    destruct (merge_all_rank v G) as (Hall & w & Hw & Hpw).
    destruct (merge_all_rank v' G') as (Hall' & w' & Hw' & Hpw').
    cbv zeta in *. rewrite Forall_forall in Hall, Hall'.
    rewrite <- HGp in Hw'. rewrite HGp in Hw.
    apply Hall in Hw'. apply Hall' in Hw.
    rewrite Hpw in Hw. rewrite Hpw' in Hw'. lia.
Qed.

(** X17: reordering the raw violations changes neither which keys have a
    row, nor the URL list, the URL count and the severity rank of the row of
    a key; only the order of tied rows and the fields taken from the first
    violation of a group can differ. *)
Theorem aggregate_content_ignores_order
    (raw raw' : list RawViolation) (r : Row) :
  raw ≡ₚ raw' →
  r ∈ aggregate raw →
  length (aggregate raw') = length (aggregate raw)
  ∧ ∃ r', r' ∈ aggregate raw'
          ∧ row_key r' = row_key r
          ∧ row_urls r' = row_urls r
          ∧ row_url_count r' = row_url_count r
          ∧ rank (row_priority r') = rank (row_priority r).
Proof.
  intros Hp Hr. split; [|by apply (aggregate_same_content raw)].
  assert (∀ l l', l ≡ₚ l' →
            map row_key (aggregate l) ⊆ map row_key (aggregate l')) as Hsub.
  { intros l l' Hl k (r0 & -> & Hr0)%list_elem_of_fmap.
    destruct (aggregate_same_content l l' r0 Hl Hr0) as (r' & Hr' & <- & _).
    by apply list_elem_of_fmap_2. }
  assert (∀ l, NoDup (map row_key (aggregate l))) as Hnd.
  { intros l.
    assert (map row_key (aggregate l) ≡ₚ map row_key (unsorted_rows l))
      as -> by (unfold aggregate; by rewrite list_sort_Permutation).
    rewrite unsorted_rows_keys. apply NoDup_first_seen_from. }
  rewrite <- !(length_map row_key).
  apply Permutation_length, NoDup_Permutation; [done..|].
  intros k. split; apply Hsub; done.
Qed.

Lemma aggregate_content_ignores_order_witness :
  ∃ r', r' ∈ aggregate [on_span; on_div]
        ∧ row_tag r' = "div" ∧ row_urls r' = ["https://a/"].
Proof.
  destruct (aggregate_content_ignores_order [on_div; on_span]
              [on_span; on_div] (row_of_entry (merge_all [on_div] (seed on_div))))
    as (_ & r' & Hr' & Hk & Hu & _).
  - apply Permutation_swap.
  - vm_compute. left.
  - exists r'. split; [exact Hr'|]. split.
    + by injection Hk as _ Htag _ _ _.
    + rewrite Hu. by vm_compute.
Defined.

(** X18: the URLs of a row are in ascending order. *)
Theorem aggregate_row_urls_sorted (raw : list RawViolation) (r : Row) :
  r ∈ aggregate raw → StronglySorted String.le (row_urls r).
Proof.
  intros (v & G & _ & ->)%elem_of_aggregate.
  apply StronglySorted_merge_sort; apply _.
Qed.

Lemma aggregate_row_urls_sorted_witness :
  let v1 := mkRaw "https://b/" "minor" "d" "<img>" "" "" "image-alt" "img" "" in
  let v2 := mkRaw "https://a/" "minor" "d" "<img>" "" "" "image-alt" "img" "" in
  ∃ r, aggregate [v1; v2] = [r]
       ∧ row_urls r = ["https://a/"; "https://b/"]
       ∧ StronglySorted String.le (row_urls r).
Proof.
  intros v1 v2. eexists. split; [by vm_compute|]. split; [by vm_compute|].
  apply (aggregate_row_urls_sorted [v1; v2]). vm_compute. left.
Defined.

Lemma start_scan_text w :
  is_scanning (window_app w) = false →
  mode_var w = "Manual" ∨ mode_var w = "Sitemap" →
  ∃ w2 o, start_scan w = (w2, o)
          ∧ (o = Thread (read_urls (url_text w)) ∨ ∃ t m, o = Dialog t m).
Proof.
  intros Hs Hmode. unfold start_scan. rewrite Hs. cbv zeta.
  change (mode_var (set_app _ w)) with (mode_var w).
  change (url_text (set_app _ w)) with (url_text w).
  unfold launch. destruct Hmode as [-> | ->].
  - rewrite decide_True by done.
    destruct (decide (read_urls _ = [])); eauto 10.
  - rewrite decide_False by done. rewrite decide_True by done.
    destruct (decide (read_urls _ = [])); eauto 10.
Qed.

(** X19: in manual and in sitemap mode the worker gets the lines of the text
    area stripped of white space, the blank ones left out: no URL it is
    started on is empty or has white space at an end. *)
Theorem start_scan_reads_clean_lines (w w' : Window) (urls : list string) :
  mode_var w = "Manual" ∨ mode_var w = "Sitemap" →
  start_scan w = (w', Thread urls) →
  urls = read_urls (url_text w)
  ∧ ∀ u, u ∈ urls → u ≠ "" ∧ strip u = u.
Proof.
  intros Hmode Hstart.
  assert (urls = read_urls (url_text w)) as ->.
  { pose proof (start_scan_outcome _ _ _ Hstart) as (_ & Hs & _).
    destruct (start_scan_text w Hs Hmode) as (w2 & o & Ho & [->|(t & m & ->)]);
      rewrite Hstart in Ho; by injection Ho. }
  split; [done|]. intros u. unfold read_urls.
  intros (line & _ & Hu)%list_elem_of_omap. simpl in Hu.
  destruct (decide (strip line = "")); [done|]. injection Hu as <-.
  split; [done|apply strip_strip].
Qed.

Lemma start_scan_reads_clean_lines_witness :
  let w := set_url_text (mkText "  https://a/  

https://b/ " true) blank in
  (start_scan w).2 = Thread ["https://a/"; "https://b/"]
  ∧ ∀ u, u ∈ ["https://a/"; "https://b/"] → u ≠ "" ∧ strip u = u.
Proof.
  intros w. split; [by vm_compute|].
  destruct (start_scan_reads_clean_lines w (start_scan w).1
              ["https://a/"; "https://b/"]) as [_ Hclean].
  - by left.
  - by vm_compute.
  - exact Hclean.
Defined.
